(** * aws-credentials-reporter: the fetch / merge pipeline of [main.go]

    A shallow embedding of [src/main.go]:
    - the de-duplication of the requested profiles (lines 82-93),
    - [generateCredentialReport] (lines 33-75) over a trace of the calls it
      makes to the remote service,
    - the errgroup fan-out behind the buffered channel [sem] (lines 96-121)
      as a transition system over the tasks' program points,
    - the sort, the search for the [arn] column and the row loop
      (lines 123-159).

    Go strings are byte strings ([string]), slices are lists, a [nil] slice
    is the empty list, [int] is [Z]. *)

From stdpp Require Import base list gmap strings relations sorting.
From Stdlib Require Import ZArith Lia.

Open Scope string_scope.
Open Scope list_scope.
Open Scope nat_scope.

(** Position of the first occurrence of [x] in [l]. *)
Fixpoint first_index (x : string) (l : list string) : option nat :=
  match l with
  | [] => None
  | y :: l' => if decide (x = y) then Some 0
               else S <$> first_index x l'
  end.

(** ** Profile de-duplication (main.go, lines 82-93) *)

Module Dedup.

(** The loop state: the slice [unique] and the set [processed]. *)
Record acc := Acc { unique : list string; processed : gset string }.

(** One iteration of [for _, profile := range opts.Profiles]. *)
Definition visit (a : acc) (profile : string) : acc :=
  if decide (profile ∈ processed a)
  then a
  else Acc (unique a ++ [profile]) ({[profile]} ∪ processed a).

Definition loop (profiles : list string) (a : acc) : acc :=
  foldl visit a profiles.

(** [opts.Profiles = unique] after the loop. *)
Definition dedup (profiles : list string) : list string :=
  unique (loop profiles (Acc [] ∅)).

(** The loop keeps [processed] equal to the set of names in [unique]. *)
Definition consistent (a : acc) : Prop :=
  ∀ x, x ∈ processed a ↔ x ∈ unique a.

End Dedup.

(** ** Results of fallible code *)

(** What a piece of the program does: it returns a value, it fails with an
    error value (a returned [error], or the message of [log.Fatalf]), or the
    Go runtime panics. *)
Inductive outcome (E A : Type) : Type :=
| Ok (a : A)
| Fail (e : E)
| Panic (msg : string).
Arguments Ok {E A} a.
Arguments Fail {E A} e.
Arguments Panic {E A} msg.

(** An error of the AWS SDK, known by its message. *)
Record sdk_error := SdkError { message : string }.

(** The errors [generateCredentialReport] builds with [fmt.Errorf], each one
    wrapping ([%w]) the SDK error that caused it. *)
Inductive error : Type :=
| ErrLoadingProfile (profile : string) (cause : sdk_error)
    (* "loading profile %q: %w" *)
| ErrGenerate (profile : string) (cause : sdk_error)
    (* "generate credential report for %q: %w" *)
| ErrFetch (profile : string) (cause : sdk_error)
    (* "fetch credential report for %q: %w" *)
| ErrParse (profile : string) (cause : sdk_error)
    (* "parse CSV for %q: %w" *).

(** The two [log.Fatalf] calls of [main] before the output file is created. *)
Inductive fatal : Type :=
| ErrorFetchingReports (e : error)   (* "error fetching reports: %v" *)
| UnableToLocateArn.   (* "unable to locate arn column in report header" *)

Definition report : Type := list string * list (list string).

(** ** The report fetcher (main.go, lines 33-75) *)

Module Fetcher.

(** The calls a fetch makes, in the order it makes them. *)
Inductive event := EvGenerate | EvGet | EvSleep.

Global Instance event_eq_dec : EqDecision event.
Proof. solve_decision. Defined.

(** Code that appends to the trace of calls. *)
Definition M (A : Type) : Type := list event → A * list event.

Global Instance M_ret : MRet M := λ A a tr, (a, tr).
Global Instance M_bind : MBind M :=
  λ A B k m tr, let '(a, tr') := m tr in k a tr'.
Definition emit (e : event) : M unit := λ tr, (tt, tr ++ [e]).
Definition count_of (e : event) : M nat :=
  λ tr, (length (filter (λ e', e' = e) tr), tr).

Section Service.
(** The remote service and the SDK, as the fetch sees them. *)
Context {Cfg : Type}.
Variable LoadDefaultConfig : string → sdk_error + Cfg.
Variable GenerateCredentialReport : Cfg → sdk_error + unit.
(** The answer to the retrieval that follows [n] earlier retrievals. *)
Variable GetCredentialReport : Cfg → nat → sdk_error + string.
Variable csv_ReadAll : string → sdk_error + list (list string).

Definition client_GenerateCredentialReport (cfg : Cfg) : M (sdk_error + unit) :=
  emit EvGenerate;; mret (GenerateCredentialReport cfg).

Definition client_GetCredentialReport (cfg : Cfg) : M (sdk_error + string) :=
  n ← count_of EvGet; emit EvGet;; mret (GetCredentialReport cfg n).

Definition time_Sleep : M unit := emit EvSleep.

(** [for i := 0; i < 10; i++] with [fuel = 10 - i]. The variables
    [report, err] are [None] before the first assignment, then the last
    answer. *)
Fixpoint poll (cfg : Cfg) (fuel : nat) (last : option (sdk_error + string))
  : M (option (sdk_error + string)) :=
  match fuel with
  | 0 => mret last
  | S fuel' =>
      r ← client_GetCredentialReport cfg;
      match r with
      | inr content => mret (Some (inr content))   (* break *)
      | inl e => time_Sleep;; poll cfg fuel' (Some (inl e))
      end
  end.

(** Lines 64-74: parse, then split header and rows. *)
Definition parse (profile content : string) : outcome error report :=
  match csv_ReadAll content with
  | inl e => Fail (ErrParse profile e)
  | inr [] => Ok ([], [])
  | inr (record0 :: records) => Ok (record0, records)
  end.

Definition generateCredentialReport (profile : string) : M (outcome error report) :=
  match LoadDefaultConfig profile with
  | inl e => mret (Fail (ErrLoadingProfile profile e))
  | inr cfg =>
      g ← client_GenerateCredentialReport cfg;
      match g with
      | inl e => mret (Fail (ErrGenerate profile e))
      | inr _ =>
          last ← poll cfg 10 None;
          match last with
          | Some (inl e) => mret (Fail (ErrFetch profile e))
          | Some (inr content) => mret (parse profile content)
          | None => mret (Panic "nil pointer dereference")
          end
      end
  end.

(** A fetch starts with an empty trace. *)
Definition fetch (profile : string) : outcome error report :=
  fst (generateCredentialReport profile []).

Definition calls (profile : string) : list event :=
  snd (generateCredentialReport profile []).

End Service.

Definition count (e : event) (tr : list event) : nat :=
  length (filter (λ e', e' = e) tr).

(** [k] failed retrievals, each followed by its sleep. *)
Definition failed_attempts (k : nat) : list event :=
  concat (replicate k [EvGet; EvSleep]).

End Fetcher.

(** ** The merge (main.go, lines 123-159) *)

Record profileResult := ProfileResult {
  idx : Z;
  profile : string;
  header : list string;
  rows : list (list string);
}.

(** The zero value of the struct, as [make] fills the slice [results]. *)
Definition zero_profileResult : profileResult := ProfileResult 0 "" [] [].

Module Merge.

(** [strings.HasSuffix]:
    [len(s) >= len(suffix) && s[len(s)-len(suffix):] == suffix]. *)
Definition HasSuffix (s suffix : string) : bool :=
  (String.length suffix <=? String.length s)
  && String.eqb (String.substring (String.length s - String.length suffix)
                           (String.length suffix) s) suffix.

(** [insertionSortLessFunc] of package [sort], which [sort.Slice] runs on
    short slices: the sorted prefix is kept reversed, and the next element
    sinks past the elements it is less than. On longer slices [sort.Slice]
    runs other code; [sorted_by] is what it promises in every case. *)
Fixpoint sink {A} (less : A → A → bool) (x : A) (rev_prefix : list A) : list A :=
  match rev_prefix with
  | [] => [x]
  | y :: rest => if less x y then y :: sink less x rest else x :: y :: rest
  end.

Definition sort_Slice {A} (less : A → A → bool) (l : list A) : list A :=
  rev (foldl (λ rev_prefix x, sink less x rev_prefix) [] l).

(** What [sort.Slice] promises of its result, whatever the algorithm. *)
Definition sorted_by {A} (less : A → A → bool) (l : list A) : Prop :=
  ∀ i j a b, l !! i = Some a → l !! j = Some b → i < j → less b a = false.

(** Every element carries its own position as [idx], counted from [c]. *)
Definition positional (c : Z) (l : list profileResult) : Prop :=
  ∀ i a, l !! i = Some a → idx a = (c + Z.of_nat i)%Z.

(** Lines 124-126. *)
Definition less_idx (a b : profileResult) : bool := (idx a <? idx b)%Z.
Definition sort_results (results : list profileResult) : list profileResult :=
  sort_Slice less_idx results.

(** Lines 131-136: [for i, h := range header], from index [i] on. *)
Fixpoint find_arn (i : Z) (header : list string) (arnIdx : Z) : Z :=
  match header with
  | [] => arnIdx
  | h :: header' =>
      if String.eqb h "arn" then i   (* break *)
      else find_arn (i + 1) header' arnIdx
  end.

(** [row[i]] with its bounds check. *)
Definition index (row : list string) (i : Z) : option string :=
  if ((0 <=? i) && (i <? Z.of_nat (length row)))%Z
  then row !! Z.to_nat i else None.

(** A [for ... range] loop whose body may stop the program. *)
Fixpoint for_each {E S A} (body : S → A → outcome E S) (l : list A) (s : S)
  : outcome E S :=
  match l with
  | [] => Ok s
  | x :: l' =>
      match body s x with
      | Ok s' => for_each body l' s'
      | Fail e => Fail e
      | Panic msg => Panic msg
      end
  end.

(** Lines 151-157, the body of the inner loop. *)
Definition append_row (ExcludeRoot : bool) (arnIdx : Z) (profile : string)
    (allResults : list (list string)) (row : list string)
  : outcome fatal (list (list string)) :=
  if ExcludeRoot then
    match index row arnIdx with
    | None => Panic "index out of range"
    | Some cell =>
        if HasSuffix cell ":root" then Ok allResults   (* continue *)
        else Ok (allResults ++ [profile :: row])
    end
  else Ok (allResults ++ [profile :: row]).

(** Lines 149-159. *)
Definition append_results (ExcludeRoot : bool) (arnIdx : Z)
    (results : list profileResult) (allResults : list (list string))
  : outcome fatal (list (list string)) :=
  for_each (λ all res,
              for_each (append_row ExcludeRoot arnIdx (profile res)) (rows res) all)
           results allResults.

(** Lines 128-159, on the sorted [results]. *)
Definition merge (ExcludeRoot : bool) (results : list profileResult)
  : outcome fatal (list (list string)) :=
  let arnIdx :=
    match results with
    | [] => (-1)%Z
    | first :: _ => find_arn 0 (header first) (-1)
    end in
  if (0 <? length results) && (arnIdx <? 0)%Z then Fail UnableToLocateArn
  else
    let allResults :=
      match results with
      | [] => []
      | first :: _ => [ "profile" :: header first ]
      end in
    append_results ExcludeRoot arnIdx results allResults.

(** The rows a result adds to the table when the [arn] column is [k]. *)
Definition is_root (k : nat) (row : list string) : bool :=
  match row !! k with
  | Some cell => HasSuffix cell ":root"
  | None => false
  end.

Definition kept (ExcludeRoot : bool) (k : nat) (row : list string) : bool :=
  negb (ExcludeRoot && is_root k row).

(** No row makes [row[k]] panic when the filter reads it. *)
Definition indexable (ExcludeRoot : bool) (k : nat) (results : list profileResult)
  : bool :=
  negb ExcludeRoot
  || forallb (λ res, forallb (λ row : list string, k <? length row) (rows res)) results.

Definition rows_of (ExcludeRoot : bool) (k : nat) (res : profileResult)
  : list (list string) :=
  (λ row, profile res :: row) <$> filter (λ row, kept ExcludeRoot k row = true) (rows res).

Definition data_rows (ExcludeRoot : bool) (k : nat) (results : list profileResult)
  : list (list string) :=
  concat (rows_of ExcludeRoot k <$> results).

(** Every row has a cell in column [k]. *)
Definition wide_enough (k : nat) (results : list profileResult) : Prop :=
  ∀ res row, res ∈ results → row ∈ rows res → k < length row.

(** The result differs from [res] in its header only. *)
Definition with_header (h : list string) (res : profileResult) : profileResult :=
  ProfileResult (idx res) (profile res) h (rows res).

End Merge.

(** ** The fetch coordinator (main.go, lines 95-121) *)

Module Coordinator.

(** Where a task of [eg.Go] stands. *)
Inductive pc :=
| PcSend
    (* before [sem <- struct{}{}], line 104 *)
| PcFetch
    (* holds a slot; in [generateCredentialReport], line 107 *)
| PcRelease (ret : option error)
    (* the body returns [ret]; the deferred [<-sem] is pending, line 105 *)
| PcDone.
    (* the errgroup has kept the error, if any, and counted the task out *)

Record state := State {
  launched : nat;                  (* the [i] of the loop of line 100 *)
  pcs : list pc;                   (* one entry per launched task *)
  sem : nat;                       (* [len(sem)] *)
  results : list profileResult;    (* the slice [results] *)
  egerr : option error;            (* the first error kept by the errgroup *)
}.

(** [cap(sem)], line 97. *)
Definition sem_cap : nat := 4.

Definition holds_gate (p : pc) : bool :=
  match p with PcFetch | PcRelease _ => true | _ => false end.

(** The tasks between their send on [sem] and their receive from it. *)
Definition holders (s : state) : nat :=
  length (filter (λ p, holds_gate p = true) (pcs s)).

Definition init (profiles : list string) : state :=
  State 0 [] 0 (replicate (length profiles) zero_profileResult) None.

Section Run.
(** What [generateCredentialReport] does for each profile in this run. *)
Variable fetch : string → outcome error report.
(** [opts.Profiles] after de-duplication. *)
Variable profiles : list string.

(** One step of [main] or of one task. A task that panics (in its fetch, or
    writing outside [results]) takes no further step. *)
Inductive step : state → state → Prop :=
| step_go s :
    launched s < length profiles →
    step s (State (S (launched s)) (pcs s ++ [PcSend]) (sem s)
                  (results s) (egerr s))
| step_send s i :
    pcs s !! i = Some PcSend →
    sem s < sem_cap →
    step s (State (launched s) (<[i := PcFetch]> (pcs s)) (S (sem s))
                  (results s) (egerr s))
| step_fetch_ok s i p h r :
    pcs s !! i = Some PcFetch →
    profiles !! i = Some p →
    fetch p = Ok (h, r) →
    i < length (results s) →
    step s (State (launched s) (<[i := PcRelease None]> (pcs s)) (sem s)
                  (<[i := ProfileResult (Z.of_nat i) p h r]> (results s))
                  (egerr s))
| step_fetch_err s i p e :
    pcs s !! i = Some PcFetch →
    profiles !! i = Some p →
    fetch p = Fail e →
    step s (State (launched s) (<[i := PcRelease (Some e)]> (pcs s)) (sem s)
                  (results s) (egerr s))
| step_recv s i ret :
    pcs s !! i = Some (PcRelease ret) →
    0 < sem s →
    step s (State (launched s) (<[i := PcDone]> (pcs s)) (pred (sem s))
                  (results s)
                  (match egerr s with Some e0 => Some e0 | None => ret end)).

Definition reachable (s : state) : Prop := rtc step (init profiles) s.

(** [eg.Wait()] returns: every task was launched and has finished. *)
Definition settled (s : state) : Prop :=
  launched s = length profiles ∧ Forall (λ p, p = PcDone) (pcs s).

(** Lines 119-159, from the state in which [eg.Wait()] returns. *)
Definition main_after_wait (ExcludeRoot : bool) (s : state)
  : outcome fatal (list (list string)) :=
  match egerr s with
  | Some e => Fail (ErrorFetchingReports e)
  | None => Merge.merge ExcludeRoot (Merge.sort_results (results s))
  end.

(** What task [i], fetching [p], leaves in [results[i]]. *)
Definition slot (i : nat) (p : string) : profileResult :=
  match fetch p with
  | Ok (h, r) => ProfileResult (Z.of_nat i) p h r
  | _ => zero_profileResult
  end.

(** The slice [results] once every task has returned. *)
Definition fetched : list profileResult := imap slot profiles.

(** Every fetch of the run returns a report. *)
Definition all_fetched : Prop :=
  ∀ p, p ∈ profiles → ∃ h r, fetch p = Ok (h, r).

(** The report of a profile, empty when its fetch returned none. *)
Definition payload (p : string) : report :=
  match fetch p with
  | Ok rep => rep
  | _ => ([], [])
  end.

(** The rows of the profiles in request order, each profile's rows in the
    order of its payload, without the rows the filter drops. *)
Definition grouped (ExcludeRoot : bool) (k : nat) : list (list string) :=
  concat ((λ p, (λ row, p :: row)
                  <$> filter (λ row, Merge.kept ExcludeRoot k row = true)
                             (payload p).2)
          <$> profiles).

(** The task has returned from [generateCredentialReport]. *)
Definition returned (q : pc) : bool :=
  match q with PcRelease _ | PcDone => true | _ => false end.

(** What holds in every state of a run. *)
Record inv (s : state) : Prop := Inv {
  inv_launched : length (pcs s) = launched s;
  inv_bound : launched s ≤ length profiles;
  inv_holders : holders s = sem s;
  inv_cap : sem s ≤ sem_cap;
  inv_length : length (results s) = length profiles;
  inv_results : ∀ i p, profiles !! i = Some p →
    results s !! i =
      Some (match pcs s !! i with
            | Some q => if returned q then slot i p else zero_profileResult
            | None => zero_profileResult
            end);
  inv_pending : ∀ i e, pcs s !! i = Some (PcRelease (Some e)) →
    ∃ p, p ∈ profiles ∧ fetch p = Fail e;
  inv_egerr : ∀ e, egerr s = Some e → ∃ p, p ∈ profiles ∧ fetch p = Fail e;
}.

End Run.

(** [main] from the parsed flags to the table it hands to the CSV writer:
    [out] is the outcome of one of its runs. *)
Definition main (fetch : string → outcome error report) (Profiles : list string)
    (ExcludeRoot : bool) (out : outcome fatal (list (list string))) : Prop :=
  ∃ s, reachable fetch (Dedup.dedup Profiles) s
       ∧ settled (Dedup.dedup Profiles) s
       ∧ out = main_after_wait ExcludeRoot s.

End Coordinator.

(** ** Concrete runs *)

Module Examples.

(** A service whose report is ready at the tenth retrieval. *)
Definition load_ok (profile : string) : sdk_error + string := inr profile.
Definition generate_ok (cfg : string) : sdk_error + unit := inr tt.
Definition ready_at_tenth (cfg : string) (n : nat) : sdk_error + string :=
  if n <? 9 then inl (SdkError "ReportNotReady") else inr "user,arn".

(** A service whose report is never ready. *)
Definition never_ready (cfg : string) (n : nat) : sdk_error + string :=
  inl (SdkError (if n =? 9 then "ReportInProgress" else "ReportNotReady")).

(** A service that answers at once, with an empty payload for the profile
    [empty] and a header without rows for the profile [idle]. *)
Definition ready_at_once (cfg : string) (n : nat) : sdk_error + string :=
  inr (if String.eqb cfg "empty" then ""
       else if String.eqb cfg "idle" then "user,arn"
       else "user,arn;alice,arn:aws:iam::1:user/alice").

(** The records of the payloads above. *)
Definition read_all (content : string) : sdk_error + list (list string) :=
  if String.eqb content "" then inr []
  else if String.eqb content "user,arn" then inr [["user"; "arn"]]
  else if String.eqb content "user,arn;alice,arn:aws:iam::1:user/alice"
  then inr [["user"; "arn"]; ["alice"; "arn:aws:iam::1:user/alice"]]
  else inl (SdkError "record on line 1: wrong number of fields").

(** The reports of the end-to-end example of the specification. *)
Definition two_accounts (profile : string) : outcome error report :=
  if String.eqb profile "acct1"
  then Ok (["user"; "arn"; "active"],
           [["alice"; "arn:aws:iam::1:user/alice"; "true"]])
  else Ok (["user"; "arn"; "active"],
           [["root"; "arn:aws:iam::2:root"; "true"]]).

Definition acct1 : profileResult :=
  ProfileResult 0 "acct1" ["user"; "arn"; "active"]
                [["alice"; "arn:aws:iam::1:user/alice"; "true"]].
Definition acct2 : profileResult :=
  ProfileResult 1 "acct2" ["user"; "arn"; "active"]
                [["root"; "arn:aws:iam::2:root"; "true"]].

(** Two results whose headers disagree. *)
Definition users : profileResult :=
  ProfileResult 0 "a" ["user"; "arn"] [["alice"; "arn:aws:iam::1:user/alice"]].
Definition keys : profileResult :=
  ProfileResult 1 "b" ["arn"; "key"; "age"] [["arn:aws:iam::2:user/bob"; "k1"; "7"]].

(** A result whose report has no [arn] column. *)
Definition no_arn : profileResult :=
  ProfileResult 0 "a" ["user"; "active"] [["alice"; "true"]].

(** The state in which [eg.Wait()] returns for two profiles. *)
Definition settled2 (r0 r1 : profileResult) : Coordinator.state :=
  Coordinator.State 2 [Coordinator.PcDone; Coordinator.PcDone] 0 [r0; r1] None.

(** Five profiles: four tasks hold the gate and the fifth waits. *)
Definition five : list string := ["a"; "b"; "c"; "d"; "e"].
Definition gate_full : Coordinator.state :=
  Coordinator.State 5
    [Coordinator.PcFetch; Coordinator.PcFetch; Coordinator.PcFetch;
     Coordinator.PcFetch; Coordinator.PcSend]
    4 (replicate 5 zero_profileResult) None.

(** The first profile has an empty payload, the second has data. *)
Definition empty_then_data (profile : string) : outcome error report :=
  if String.eqb profile "empty" then Ok ([], [])
  else Ok (["user"; "arn"], [["alice"; "arn:aws:iam::1:user/alice"]]).

End Examples.

(** ** The rest of [main]: errors, progress and the output file *)

(** The profile an error of a fetch names (its [%q]). *)
Definition error_profile (e : error) : string :=
  match e with
  | ErrLoadingProfile p _ | ErrGenerate p _ | ErrFetch p _ | ErrParse p _ => p
  end.

Module Progress.
Import Coordinator.

(** How far a task is: the steps it has taken. *)
Definition rank (q : pc) : nat :=
  match q with
  | PcSend => 0
  | PcFetch => 1
  | PcRelease _ => 2
  | PcDone => 3
  end.

(** The steps taken so far: one per launch, and the steps of each task. *)
Definition steps_taken (s : state) : nat :=
  launched s + sum_list (rank <$> pcs s).

Section Run.
Variable fetch : string → outcome error report.
Variable profiles : list string.

(** What a task returns is what its fetch returned, and the errgroup has
    kept an error as soon as a task that failed is done. *)
Record inv_errors (s : state) : Prop := InvErrors {
  inv_ret : ∀ i p ret, profiles !! i = Some p →
    pcs s !! i = Some (PcRelease ret) →
    ret = match fetch p with Fail e => Some e | _ => None end;
  inv_kept : ∀ i p e, profiles !! i = Some p →
    pcs s !! i = Some PcDone → fetch p = Fail e → is_Some (egerr s);
}.

End Run.

End Progress.


(** ** The report sink (main.go, lines 161-175) *)

Module Sink.

(** The calls on the output file. *)
Inductive io_event :=
| IoCreate (path : string)                     (* [os.Create], line 161 *)
| IoWriteAll (records : list (list string))    (* [writer.WriteAll], line 171 *)
| IoFlush                                      (* [writer.Flush], line 175 *)
| IoClose.                                     (* the deferred [file.Close] *)

(** How the process ends. *)
Inductive exit :=
| ExitOk
| ExitFatal (f : fatal)
| ExitCreate (path : string) (e : sdk_error)   (* "unable to create CSV %s: %v" *)
| ExitWrite (e : sdk_error)                    (* "error writing CSV: %v" *)
| ExitPanic (msg : string).

Section Files.
(** The file system and the CSV writer: the error of each call, if any. *)
Variable os_Create : string → option sdk_error.
Variable writer_WriteAll : list (list string) → option sdk_error.

(** Lines 161-175. [log.Fatalf] exits without running the deferred
    [file.Close]. *)
Definition write_report (Output : string) (allResults : list (list string))
  : exit * list io_event :=
  match os_Create Output with
  | Some e => (ExitCreate Output e, [IoCreate Output])
  | None =>
      match writer_WriteAll allResults with
      | Some e => (ExitWrite e, [IoCreate Output; IoWriteAll allResults])
      | None =>
          (ExitOk, [IoCreate Output; IoWriteAll allResults; IoFlush; IoClose])
      end
  end.

(** Lines 119-176, from the state in which [eg.Wait()] returns. *)
Definition finish (Output : string) (ExcludeRoot : bool) (s : Coordinator.state)
  : exit * list io_event :=
  match Coordinator.main_after_wait ExcludeRoot s with
  | Ok allResults => write_report Output allResults
  | Fail f => (ExitFatal f, [])
  | Panic msg => (ExitPanic msg, [])
  end.

End Files.

End Sink.

Module MoreExamples.

(** The first profile cannot be loaded, the second is never ready. *)
Definition load_second (profile : string) : sdk_error + string :=
  if String.eqb profile "gone" then inl (SdkError "profile not found")
  else inr profile.

(** The report of [acct1] arrives, the request for [acct2] is denied. *)
Definition second_denied (profile : string) : outcome error report :=
  if String.eqb profile "acct1"
  then Ok (["user"; "arn"], [["alice"; "arn:aws:iam::1:user/alice"]])
  else Fail (ErrGenerate profile (SdkError "AccessDenied")).

(** The second report has a single column. *)
Definition narrow : profileResult :=
  ProfileResult 1 "b" ["arn"] [["arn:aws:iam::2:root"]].

(** A disk on which nothing fails, and one that is full. *)
Definition create_ok (path : string) : option sdk_error := None.
Definition write_ok (records : list (list string)) : option sdk_error := None.
Definition write_full (records : list (list string)) : option sdk_error :=
  Some (SdkError "no space left on device").

(** The state in which [eg.Wait()] returns for two profiles, with an error
    kept. *)
Definition failed2 (r0 r1 : profileResult) (e : error) : Coordinator.state :=
  Coordinator.State 2 [Coordinator.PcDone; Coordinator.PcDone] 0 [r0; r1] (Some e).

(** Every request is denied. *)
Definition all_denied (profile : string) : outcome error report :=
  Fail (ErrGenerate profile (SdkError "AccessDenied")).


(** One task that has run to its end. *)
Definition settled1 : Coordinator.state :=
  Coordinator.State 1 [Coordinator.PcDone] 0
    [ProfileResult 0 "acct1" ["user"; "arn"; "active"]
                   [["alice"; "arn:aws:iam::1:user/alice"; "true"]]]
    None.

(** One task that has been launched. *)
Definition launched1 : Coordinator.state :=
  Coordinator.State 1 [Coordinator.PcSend] 0 [zero_profileResult] None.

End MoreExamples.

Module ListFacts.

Lemma first_index_lookup x l a :
first_index x l = Some a → l !! a = Some x ∧ ∀ b, b < a → l !! b ≠ Some x.
Proof.
revert a. induction l as [|y l IH]; intros a; simpl; [done|].
case_decide as Hxy.
- intros [= <-]. subst y. split; [done|lia].
- destruct (first_index x l) as [a'|] eqn:E; simpl; [|done].
  intros [= <-]. destruct (IH a' eq_refl) as [Hl Hb]. split; [done|].
  intros [|b] Hlt; simpl; [congruence|]. apply Hb. lia.
Qed.

Lemma first_index_app_l x l l' :
x ∈ l → first_index x (l ++ l') = first_index x l.
Proof.
induction l as [|y l IH]; simpl; [by intros ?%elem_of_nil|].
intros Hin. case_decide; [done|].
apply elem_of_cons in Hin as [?|Hin]; [done|]. by rewrite IH.
Qed.

Lemma first_index_snoc_fresh x l :
x ∉ l → first_index x (l ++ [x]) = Some (length l).
Proof.
induction l as [|y l IH]; simpl; intros Hin.
- by rewrite decide_True.
- apply not_elem_of_cons in Hin as [Hne Hin].
  rewrite decide_False by done. by rewrite IH.
Qed.

Lemma first_index_elem x l : x ∈ l → ∃ a, first_index x l = Some a ∧ a < length l.
Proof.
induction l as [|y l IH]; simpl; [by intros ?%elem_of_nil|].
intros Hin. case_decide; [exists 0; split; [done|lia]|].
apply elem_of_cons in Hin as [?|Hin]; [done|].
destruct (IH Hin) as (a & -> & Hlt). exists (S a). split; [done|lia].
Qed.

Lemma first_index_None x l : first_index x l = None ↔ x ∉ l.
Proof.
  induction l as [|y l IH]; simpl.
  - split; [intros _; apply not_elem_of_nil|done].
  - rewrite not_elem_of_cons. case_decide as Hxy.
    + split; [done|]. by intros [? _].
    + rewrite <- IH. destruct (first_index x l); simpl; split; try done.
      by intros [_ ?].
Qed.

End ListFacts.

Module DedupFacts.
Import ListFacts.
Import Dedup.

Lemma visit_consistent a p : consistent a → consistent (visit a p).
Proof.
  intros Hset. unfold visit. case_decide as Hin; [done|].
  intros x. simpl. rewrite elem_of_union, elem_of_singleton, elem_of_app,
    list_elem_of_singleton, (Hset x). tauto.
Qed.

Lemma loop_consistent l a : consistent a → consistent (loop l a).
Proof.
  revert a. induction l as [|p l IH]; intros a Ha; [done|].
  apply IH, visit_consistent, Ha.
Qed.

(** Reading one more name at the end of the input. *)
Lemma dedup_snoc l p :
  dedup (l ++ [p]) = if decide (p ∈ dedup l) then dedup l else dedup l ++ [p].
Proof.
  unfold dedup, loop. rewrite foldl_app. simpl.
  set (a := foldl visit (Acc [] ∅) l).
  assert (consistent a) as Ha by (apply loop_consistent; intros x; set_solver).
  unfold visit. destruct (decide (p ∈ processed a)) as [Hin|Hin].
  - rewrite decide_True; [done|by apply Ha].
  - rewrite decide_False; [done|]. intros ?. by apply Hin, Ha.
Qed.

Lemma dedup_elem l x : x ∈ dedup l ↔ x ∈ l.
Proof.
  induction l as [|p l IH] using rev_ind.
  - done.
  - rewrite dedup_snoc, elem_of_app, list_elem_of_singleton.
    case_decide as Hp.
    + rewrite IH. split; [tauto|]. intros [?| ->]; [done|]. by apply IH.
    + rewrite elem_of_app, list_elem_of_singleton, IH. tauto.
Qed.

Lemma dedup_NoDup l : NoDup (dedup l).
Proof.
  induction l as [|p l IH] using rev_ind.
  - constructor.
  - rewrite dedup_snoc. case_decide as Hp; [done|].
    apply NoDup_app. split_and!; [done| |apply NoDup_singleton].
    by intros x Hx ->%list_elem_of_singleton.
Qed.

(** Names come out in the order of their first occurrences. *)
Lemma dedup_order l i j x y :
  dedup l !! i = Some x → dedup l !! j = Some y → i < j →
  ∃ a b, first_index x l = Some a ∧ first_index y l = Some b ∧ a < b.
Proof.
  revert i j x y. induction l as [|p l IH] using rev_ind; intros i j x y.
  - done.
  - rewrite dedup_snoc. case_decide as Hp.
    + intros Hi Hj Hlt. destruct (IH _ _ _ _ Hi Hj Hlt) as (a & b & Ha & Hb & ?).
      exists a, b. split_and!; [| |done].
      * rewrite first_index_app_l; [done|].
        apply dedup_elem, list_elem_of_lookup. eauto.
      * rewrite first_index_app_l; [done|].
        apply dedup_elem, list_elem_of_lookup. eauto.
    + intros Hi Hj Hlt.
      assert (i < length (dedup l)) as Hil.
      { apply lookup_lt_Some in Hj. rewrite length_app in Hj. simpl in Hj. lia. }
      rewrite lookup_app_l in Hi by done.
      destruct (decide (j < length (dedup l))) as [Hjl|Hjl].
      * rewrite lookup_app_l in Hj by done.
        destruct (IH _ _ _ _ Hi Hj Hlt) as (a & b & Ha & Hb & ?).
        exists a, b. split_and!; [| |done].
        -- rewrite first_index_app_l; [done|].
           apply dedup_elem, list_elem_of_lookup. eauto.
        -- rewrite first_index_app_l; [done|].
           apply dedup_elem, list_elem_of_lookup. eauto.
      * rewrite lookup_app_r in Hj by lia.
        apply list_lookup_singleton_Some in Hj as [_ <-].
        assert (x ∈ l) as Hx by (apply dedup_elem, list_elem_of_lookup; eauto).
        destruct (first_index_elem x l Hx) as (a & Ha & Hlen).
        exists a, (length l). split_and!; [|auto|done].
        -- by rewrite first_index_app_l.
        -- apply first_index_snoc_fresh. by rewrite <- dedup_elem.
Qed.

End DedupFacts.

Module FetcherFacts.
Import Fetcher.

Lemma count_app e tr tr' : count e (tr ++ tr') = count e tr + count e tr'.
Proof. unfold count. by rewrite filter_app, length_app. Qed.

Lemma count_failed_attempts k :
  count EvGet (failed_attempts k) = k ∧ count EvGenerate (failed_attempts k) = 0
  ∧ count EvSleep (failed_attempts k) = k.
Proof.
  induction k as [|k (IH1 & IH2 & IH3)]; [done|].
  change (failed_attempts (S k)) with ([EvGet; EvSleep] ++ failed_attempts k).
  rewrite !count_app, IH1, IH2, IH3. done.
Qed.

Lemma count_attempt tr :
  count EvGet ((tr ++ [EvGet]) ++ [EvSleep]) = S (count EvGet tr)
  ∧ count EvGenerate ((tr ++ [EvGet]) ++ [EvSleep]) = count EvGenerate tr.
Proof.
  rewrite !count_app.
  change (count EvGet [EvGet]) with 1. change (count EvGet [EvSleep]) with 0.
  change (count EvGenerate [EvGet]) with 0.
  change (count EvGenerate [EvSleep]) with 0. lia.
Qed.

Lemma failed_attempts_S k :
  failed_attempts (S k) = [EvGet; EvSleep] ++ failed_attempts k.
Proof. done. Qed.

Section Service.
Context {Cfg : Type}.
Variable LoadDefaultConfig : string → sdk_error + Cfg.
Variable GenerateCredentialReport : Cfg → sdk_error + unit.
Variable GetCredentialReport : Cfg → nat → sdk_error + string.
Variable csv_ReadAll : string → sdk_error + list (list string).

Local Abbreviation poll := (poll GetCredentialReport).
Local Abbreviation fetch :=
  (fetch LoadDefaultConfig GenerateCredentialReport GetCredentialReport csv_ReadAll).
Local Abbreviation calls :=
  (calls LoadDefaultConfig GenerateCredentialReport GetCredentialReport csv_ReadAll).
Local Abbreviation parse := (parse csv_ReadAll).

(** One iteration of the loop. *)
Lemma poll_S cfg fuel last tr :
  poll cfg (S fuel) last tr =
  match GetCredentialReport cfg (count EvGet tr) with
  | inr content => (Some (inr content), tr ++ [EvGet])
  | inl e => poll cfg fuel (Some (inl e)) ((tr ++ [EvGet]) ++ [EvSleep])
  end.
Proof.
  simpl. unfold client_GetCredentialReport, time_Sleep, count_of, emit, count.
  unfold mbind, M_bind, mret, M_ret.
  by destruct (GetCredentialReport cfg _).
Qed.

(** The loop stops at the first retrieval that succeeds. *)
Lemma poll_success cfg k : ∀ fuel last tr content,
  k < fuel →
  (∀ n, n < k → ∃ e, GetCredentialReport cfg (count EvGet tr + n) = inl e) →
  GetCredentialReport cfg (count EvGet tr + k) = inr content →
  poll cfg fuel last tr = (Some (inr content), tr ++ failed_attempts k ++ [EvGet]).
Proof.
  induction k as [|k IH]; intros fuel last tr content Hlt Hfail Hok.
  - destruct fuel as [|fuel]; [lia|]. rewrite poll_S.
    rewrite Nat.add_0_r in Hok. by rewrite Hok.
  - destruct fuel as [|fuel]; [lia|]. rewrite poll_S.
    destruct (Hfail 0 ltac:(lia)) as [e He]. rewrite Nat.add_0_r in He.
    rewrite He.
    destruct (count_attempt tr) as [Hc _].
    rewrite (IH fuel (Some (inl e)) ((tr ++ [EvGet]) ++ [EvSleep]) content).
    + by rewrite failed_attempts_S, <- !(assoc_L (++)).
    + lia.
    + intros n Hn. rewrite Hc.
      replace (S (count EvGet tr) + n) with (count EvGet tr + S n) by lia.
      apply Hfail. lia.
    + rewrite Hc.
      by replace (S (count EvGet tr) + k) with (count EvGet tr + S k) by lia.
Qed.

(** When every retrieval fails the loop ends with the last error. *)
Lemma poll_exhausted cfg fuel : ∀ last tr e,
  (∀ n, n < S fuel → ∃ e', GetCredentialReport cfg (count EvGet tr + n) = inl e') →
  GetCredentialReport cfg (count EvGet tr + fuel) = inl e →
  poll cfg (S fuel) last tr = (Some (inl e), tr ++ failed_attempts (S fuel)).
Proof.
  induction fuel as [|fuel IH]; intros last tr e Hfail Hlast.
  - rewrite poll_S. rewrite Nat.add_0_r in Hlast. rewrite Hlast.
    simpl. by rewrite <- (assoc_L (++)).
  - rewrite poll_S.
    destruct (Hfail 0 ltac:(lia)) as [e0 He0]. rewrite Nat.add_0_r in He0.
    rewrite He0.
    destruct (count_attempt tr) as [Hc _].
    rewrite (IH (Some (inl e0)) ((tr ++ [EvGet]) ++ [EvSleep]) e).
    + by rewrite (failed_attempts_S (S fuel)), <- !(assoc_L (++)).
    + intros n Hn. rewrite Hc.
      replace (S (count EvGet tr) + n) with (count EvGet tr + S n) by lia.
      apply Hfail. lia.
    + rewrite Hc.
      by replace (S (count EvGet tr) + fuel) with (count EvGet tr + S fuel) by lia.
Qed.

(** The loop retrieves at most [fuel] times and never generates. *)
Lemma poll_counts cfg fuel : ∀ last tr,
  count EvGet (poll cfg fuel last tr).2 ≤ count EvGet tr + fuel
  ∧ count EvGenerate (poll cfg fuel last tr).2 = count EvGenerate tr.
Proof.
  induction fuel as [|fuel IH]; intros last tr.
  - simpl. split; [lia|done].
  - rewrite poll_S. destruct (GetCredentialReport cfg _) as [e|c]; simpl.
    + destruct (IH (Some (inl e)) ((tr ++ [EvGet]) ++ [EvSleep])) as [H1 H2].
      destruct (count_attempt tr) as [Hc Hg].
      rewrite H2, Hg. rewrite Hc in H1. split; [lia|done].
    + rewrite !count_app. change (count EvGet [EvGet]) with 1.
      change (count EvGenerate [EvGet]) with 0. split; lia.
Qed.

(** The loop leaves an answer behind as soon as it runs once. *)
Lemma poll_answer cfg fuel last tr :
  (poll cfg (S fuel) last tr).1 ≠ None.
Proof.
  revert last tr. induction fuel as [|fuel IH]; intros last tr;
    rewrite poll_S; destruct (GetCredentialReport cfg _); done.
Qed.

(** The body of [generateCredentialReport] once the profile is loaded
    and the report requested. *)
Lemma generateCredentialReport_polled profile cfg u :
  LoadDefaultConfig profile = inr cfg →
  GenerateCredentialReport cfg = inr u →
  fetch profile =
    match (poll cfg 10 None [EvGenerate]).1 with
    | Some (inl e) => Fail (ErrFetch profile e)
    | Some (inr content) => parse profile content
    | None => Panic "nil pointer dereference"
    end
  ∧ calls profile = (poll cfg 10 None [EvGenerate]).2.
Proof.
  intros Hcfg Hgen. unfold Fetcher.fetch, Fetcher.calls, generateCredentialReport.
  rewrite Hcfg. unfold client_GenerateCredentialReport, emit.
  generalize (Fetcher.poll GetCredentialReport cfg 10 None). intros m.
  unfold mbind, M_bind, mret, M_ret. simpl. rewrite Hgen.
  by destruct (m [EvGenerate]) as [[[e|c]|] tr].
Qed.

(** A fetch never dereferences a nil report. *)
Lemma fetch_no_nil_report profile :
  fetch profile ≠ Panic "nil pointer dereference".
Proof.
  unfold Fetcher.fetch, generateCredentialReport.
  destruct (LoadDefaultConfig profile) as [e|cfg]; [done|].
  unfold client_GenerateCredentialReport, emit.
  pose proof (poll_answer cfg 9 None [EvGenerate]) as Hans. revert Hans.
  generalize (Fetcher.poll GetCredentialReport cfg 10 None). intros m Hans.
  unfold mbind, M_bind, mret, M_ret. simpl.
  destruct (GenerateCredentialReport cfg) as [e|u]; [done|].
  destruct (m [EvGenerate]) as [[[e|c]|] tr]; simpl in *; try done.
  unfold Fetcher.parse. by destruct (csv_ReadAll c) as [?|[|??]].
Qed.

End Service.

End FetcherFacts.

Module MergeFacts.
Import Merge ListFacts.

(** The search of lines 131-136 finds the first column named [arn]. *)
Lemma find_arn_first_index h : ∀ i d,
  find_arn i h d =
  match first_index "arn" h with
  | Some k => (i + Z.of_nat k)%Z
  | None => d
  end.
Proof.
  induction h as [|c h IH]; intros i d; simpl; [done|].
  destruct (String.eqb_spec c "arn") as [->|Hne].
  - rewrite decide_True by done. lia.
  - rewrite decide_False by done. rewrite IH.
    destruct (first_index "arn" h); simpl; [lia|done].
Qed.

Lemma index_nat row k : index row (Z.of_nat k) = row !! k.
Proof.
  unfold index. rewrite Nat2Z.id.
  destruct (Z.ltb_spec (Z.of_nat k) (Z.of_nat (length row))) as [Hlt|Hge].
  - by rewrite (proj2 (Z.leb_le 0 (Z.of_nat k))) by lia.
  - rewrite andb_false_r. symmetry. apply lookup_ge_None. lia.
Qed.

(** The inner loop, lines 150-158. *)
Lemma append_rows_unfold excl k p rws : ∀ all,
  for_each (append_row excl (Z.of_nat k) p) rws all =
  if negb excl || forallb (λ row : list string, k <? length row) rws
  then Ok (all ++ ((λ row, p :: row) <$> filter (λ row, kept excl k row = true) rws))
  else Panic "index out of range".
Proof.
  induction rws as [|row rws IH]; intros all.
  - simpl. rewrite orb_true_r. by rewrite app_nil_r.
  - cbn [for_each forallb]. unfold append_row at 1. destruct excl; cbn [negb orb].
    + rewrite index_nat. destruct (Nat.ltb_spec k (length row)) as [Hlt|Hge]; cbn [andb].
      * destruct (lookup_lt_is_Some_2 row k Hlt) as [cell Hcell].
        rewrite Hcell.
        destruct (HasSuffix cell ":root") eqn:Hroot.
        -- rewrite IH. cbn [negb orb]. rewrite filter_cons_False; [done|].
           unfold kept, is_root. rewrite Hcell, Hroot. done.
        -- rewrite IH. cbn [negb orb]. rewrite filter_cons_True.
           ++ destruct (forallb _ rws); [|done].
              by rewrite fmap_cons, <- (assoc_L (++)).
           ++ unfold kept, is_root. by rewrite Hcell, Hroot.
      * by rewrite (lookup_ge_None_2 row k) by lia.
    + rewrite IH. cbn [negb orb]. rewrite filter_cons_True by done.
      by rewrite fmap_cons, <- (assoc_L (++)).
Qed.

(** The two loops, lines 149-159. *)
Lemma append_results_unfold excl k results : ∀ all,
  append_results excl (Z.of_nat k) results all =
  if indexable excl k results
  then Ok (all ++ data_rows excl k results)
  else Panic "index out of range".
Proof.
  unfold append_results, indexable, data_rows.
  induction results as [|res results IH]; intros all.
  - simpl. rewrite orb_true_r. by rewrite app_nil_r.
  - cbn [for_each]. rewrite append_rows_unfold. rewrite fmap_cons.
    cbn [concat forallb]. unfold rows_of at 1.
    destruct excl; cbn [negb orb] in *.
    + destruct (forallb _ (rows res)); cbn [andb]; [|done].
      rewrite IH. destruct (forallb _ results); [|done].
      by rewrite <- (assoc_L (++)).
    + rewrite IH. by rewrite <- (assoc_L (++)).
Qed.

(** The merge of a non-empty list, case by case. *)
Lemma merge_unfold excl first rest :
  merge excl (first :: rest) =
  match first_index "arn" (header first) with
  | None => Fail UnableToLocateArn
  | Some k =>
      if indexable excl k (first :: rest)
      then Ok (("profile" :: header first) :: data_rows excl k (first :: rest))
      else Panic "index out of range"
  end.
Proof.
  unfold merge. rewrite find_arn_first_index.
  destruct (first_index "arn" (header first)) as [k|]; [|done].
  replace ((0 + Z.of_nat k <? 0)%Z) with false by (symmetry; apply Z.ltb_ge; lia).
  rewrite andb_false_r. rewrite Z.add_0_l. by rewrite append_results_unfold.
Qed.

Lemma indexable_wide excl k results :
  (excl = true → wide_enough k results) → indexable excl k results = true.
Proof.
  unfold indexable, wide_enough. destruct excl; [|done]. simpl.
  intros Hw. specialize (Hw eq_refl).
  apply forallb_forall. intros res Hres%list_elem_of_In.
  apply forallb_forall. intros row Hrow%list_elem_of_In.
  apply Nat.ltb_lt. by eapply Hw.
Qed.

Lemma elem_of_data_rows excl k results line :
  line ∈ data_rows excl k results ↔
  ∃ res row, res ∈ results ∧ row ∈ rows res ∧ kept excl k row = true
             ∧ line = profile res :: row.
Proof.
  unfold data_rows, rows_of. rewrite list_elem_of_In, in_concat. split.
  - intros (l & Hl%list_elem_of_In & Hline%list_elem_of_In).
    apply list_elem_of_fmap in Hl as (res & -> & Hres).
    apply list_elem_of_fmap in Hline as (row & -> & Hrow).
    apply list_elem_of_filter in Hrow as [Hk Hrow]. eauto 10.
  - intros (res & row & Hres & Hrow & Hk & ->).
    eexists. split; [apply list_elem_of_In, list_elem_of_fmap; eauto|].
    apply list_elem_of_In, list_elem_of_fmap. exists row. split; [done|].
    by apply list_elem_of_filter.
Qed.

Lemma data_rows_cons excl k res results :
  data_rows excl k (res :: results) = rows_of excl k res ++ data_rows excl k results.
Proof. done. Qed.

Lemma indexable_cons excl k res results :
  indexable excl k (res :: results)
  = indexable excl k [res] && indexable excl k results.
Proof.
  unfold indexable. cbn [forallb]. rewrite andb_true_r.
  by destruct excl, (forallb _ (rows res)).
Qed.

(** A result without rows adds nothing. *)
Lemma data_rows_no_rows excl k pre res post :
  rows res = [] →
  data_rows excl k (pre ++ res :: post) = data_rows excl k (pre ++ post).
Proof.
  intros Hr. unfold data_rows. rewrite !fmap_app, fmap_cons, !concat_app.
  simpl. unfold rows_of at 2. by rewrite Hr.
Qed.

Lemma indexable_no_rows excl k pre res post :
  rows res = [] →
  indexable excl k (pre ++ res :: post) = indexable excl k (pre ++ post).
Proof.
  intros Hr. unfold indexable. rewrite !forallb_app. simpl. by rewrite Hr.
Qed.

(** Headers play no part in the rows. *)
Lemma data_rows_with_header excl k f results :
  data_rows excl k ((λ res, with_header (f res) res) <$> results)
  = data_rows excl k results.
Proof.
  unfold data_rows. rewrite <- list_fmap_compose. f_equal.
Qed.

Lemma indexable_with_header excl k f results :
  indexable excl k ((λ res, with_header (f res) res) <$> results)
  = indexable excl k results.
Proof.
  unfold indexable. f_equal. induction results as [|res results IH]; [done|].
  rewrite fmap_cons. cbn [forallb]. by rewrite IH.
Qed.

End MergeFacts.

Module SortFacts.
Import Merge.

(** Sorting a slice that is already in the order of its keys changes
    nothing. *)
Lemma foldl_sink_positional c l : ∀ acc,
  positional c (rev acc ++ l) →
  foldl (λ rev_prefix x, sink less_idx x rev_prefix) acc l = rev l ++ acc.
Proof.
  induction l as [|x l IH]; intros acc Hpos; [done|].
  simpl.
  assert (sink less_idx x acc = x :: acc) as ->.
  { destruct acc as [|y acc]; [done|]. simpl.
    assert (idx y = c + Z.of_nat (length acc))%Z as Hy.
    { apply Hpos. simpl. rewrite <- (assoc_L (++)).
      rewrite lookup_app_r by (rewrite length_rev; lia).
      by rewrite length_rev, Nat.sub_diag. }
    assert (idx x = c + Z.of_nat (S (length acc)))%Z as Hx.
    { apply Hpos. simpl. rewrite <- (assoc_L (++)).
      rewrite lookup_app_r by (rewrite length_rev; lia).
      rewrite length_rev. by replace (S (length acc) - length acc) with 1 by lia. }
    unfold less_idx. rewrite (proj2 (Z.ltb_ge _ _)); [done|lia]. }
  rewrite IH.
  - by rewrite <- (assoc_L (++)).
  - simpl. by rewrite <- (assoc_L (++)).
Qed.

Lemma sort_results_positional c l : positional c l → sort_results l = l.
Proof.
  intros Hpos. unfold sort_results, sort_Slice.
  rewrite (foldl_sink_positional c) by done.
  by rewrite app_nil_r, rev_involutive.
Qed.

Lemma positional_tail c x l : positional c (x :: l) → positional (c + 1) l.
Proof.
  intros Hpos i a Hi. rewrite (Hpos (S i) a) by done. lia.
Qed.

Lemma sorted_by_tail {A} (less : A → A → bool) x l :
  sorted_by less (x :: l) → sorted_by less l.
Proof.
  intros Hs i j a b Hi Hj Hlt. apply (Hs (S i) (S j)); [done|done|lia].
Qed.

(** Whatever algorithm [sort.Slice] runs, a slice whose keys are its
    positions has one sorted arrangement only. *)
Lemma sorted_by_unique l : ∀ c l',
  positional c l → l' ≡ₚ l → sorted_by less_idx l' → l' = l.
Proof.
  induction l as [|x l IH]; intros c l' Hpos Hperm Hsorted.
  - by apply Permutation_nil_r.
  - destruct l' as [|y l'].
    { by apply Permutation_nil_cons in Hperm. }
    assert (idx x = c)%Z as Hx by (rewrite (Hpos 0 x) by done; lia).
    assert (∀ z, z ∈ l → (c < idx z)%Z) as Hgt.
    { intros z [i Hi]%list_elem_of_lookup.
      rewrite (Hpos (S i) z) by done. lia. }
    assert (y = x) as ->.
    { assert (y ∈ x :: l) as Hy by (rewrite <- Hperm; left).
      apply elem_of_cons in Hy as [?|Hy]; [done|]. exfalso.
      assert (x ∈ y :: l') as Hx' by (rewrite Hperm; left).
      apply elem_of_cons in Hx' as [->|Hx'].
      - specialize (Hgt _ Hy). lia.
      - apply list_elem_of_lookup in Hx' as [j Hj].
        specialize (Hsorted 0 (S j) y x eq_refl Hj ltac:(lia)).
        unfold less_idx in Hsorted. apply Z.ltb_ge in Hsorted.
        specialize (Hgt _ Hy). lia. }
    f_equal. apply (IH (c + 1)%Z).
    + by eapply positional_tail.
    + by eapply Permutation_cons_inv.
    + by eapply sorted_by_tail.
Qed.

End SortFacts.

Module CoordinatorFacts.
Import Coordinator.

(** Moving one task changes the number of holders by that task alone. *)
Lemma holders_insert tasks i old new :
  tasks !! i = Some old →
  length (filter (λ p, holds_gate p = true) (<[i := new]> tasks))
    + (if holds_gate old then 1 else 0)
  = length (filter (λ p, holds_gate p = true) tasks)
    + (if holds_gate new then 1 else 0).
Proof.
  revert i. induction tasks as [|q tasks IH]; intros i Hi; [done|].
  destruct i as [|i]; simpl in Hi.
  - injection Hi as ->. simpl.
    rewrite !filter_cons.
    destruct (decide (holds_gate new = true)) as [Hn|Hn],
             (decide (holds_gate old = true)) as [Ho|Ho]; simpl.
    + rewrite Hn, Ho. lia.
    + apply not_true_is_false in Ho. rewrite Hn, Ho. lia.
    + apply not_true_is_false in Hn. rewrite Hn, Ho. lia.
    + apply not_true_is_false in Hn, Ho. rewrite Hn, Ho. lia.
  - simpl. rewrite !filter_cons. specialize (IH i Hi).
    destruct (decide (holds_gate q = true)); simpl; lia.
Qed.

Section Run.
Variable fetch : string → outcome error report.
Variable profiles : list string.

Local Abbreviation step := (step fetch profiles).
Local Abbreviation reachable := (reachable fetch profiles).
Local Abbreviation inv := (inv fetch profiles).
Local Abbreviation slot := (slot fetch).

Lemma inv_init : inv (init profiles).
Proof.
  split; simpl; try done; try lia.
  - by rewrite length_replicate.
  - intros i p Hp. apply lookup_replicate_2. by eapply lookup_lt_Some.
Qed.

(** The slot of a task other than the one that moved. *)
Lemma slot_insert_ne (tasks : list pc) i j q (p : string) :
  i ≠ j →
  match <[i := q]> tasks !! j with
  | Some q' => if returned q' then slot j p else zero_profileResult
  | None => zero_profileResult
  end =
  match tasks !! j with
  | Some q' => if returned q' then slot j p else zero_profileResult
  | None => zero_profileResult
  end.
Proof. intros Hne. by rewrite list_lookup_insert_ne. Qed.

Lemma inv_step s s' : inv s → step s s' → inv s'.
Proof.
  intros [Hlen Hbound Hhold Hcap Hrlen Hres Hpend Herr] Hstep.
  destruct Hstep as [s Hlt | s i Hi Hfree | s i p h r Hi Hp Hf Hir
                    | s i p e Hi Hp Hf | s i ret Hi Hpos].
  - split; simpl; [| lia | | done | done | | | done].
    + rewrite length_app. simpl. lia.
    + unfold holders in *. simpl. rewrite filter_app, length_app.
      rewrite Hhold. simpl. lia.
    + intros i p Hp. rewrite (Hres i p Hp). f_equal.
      destruct (decide (i < length (pcs s))) as [Hi|Hi].
      * by rewrite lookup_app_l.
      * rewrite (lookup_ge_None_2 (pcs s)) by lia.
        rewrite lookup_app_r by lia.
        by destruct (i - length (pcs s)) as [|n].
    + intros i e Hi. apply (Hpend i e).
      destruct (decide (i < length (pcs s))) as [Hil|Hil].
      * by rewrite lookup_app_l in Hi.
      * rewrite lookup_app_r in Hi by lia.
        by destruct (i - length (pcs s)) as [|[|n]].
  - pose proof (holders_insert (pcs s) i PcSend PcFetch Hi) as Hh.
    assert (i < length (pcs s)) as Hil by by eapply lookup_lt_Some.
    split; simpl; [| done | | | done | | | done].
    + by rewrite length_insert.
    + unfold holders in *. simpl in *. lia.
    + unfold sem_cap in *. lia.
    + intros j p Hp. rewrite (Hres j p Hp). f_equal.
      destruct (decide (i = j)) as [<-|Hne]; [|by rewrite slot_insert_ne].
      rewrite Hi. by rewrite list_lookup_insert_eq by lia.
    + intros j e Hj. apply (Hpend j e).
      destruct (decide (i = j)) as [<-|Hne].
      * by rewrite list_lookup_insert_eq in Hj by lia.
      * by rewrite list_lookup_insert_ne in Hj.
  - pose proof (holders_insert (pcs s) i PcFetch (PcRelease None) Hi) as Hh.
    assert (i < length (pcs s)) as Hil by by eapply lookup_lt_Some.
    split; simpl; [| done | | done | | | | done].
    + by rewrite length_insert.
    + unfold holders in *. simpl in *. lia.
    + by rewrite length_insert.
    + intros j p' Hp'.
      destruct (decide (i = j)) as [<-|Hne].
      * rewrite !list_lookup_insert_eq by lia. simpl.
        rewrite Hp in Hp'. injection Hp' as <-.
        unfold Coordinator.slot. by rewrite Hf.
      * rewrite list_lookup_insert_ne by done.
        rewrite (Hres j p' Hp'). f_equal. by rewrite slot_insert_ne.
    + intros j e Hj. apply (Hpend j e).
      destruct (decide (i = j)) as [<-|Hne].
      * by rewrite list_lookup_insert_eq in Hj by lia.
      * by rewrite list_lookup_insert_ne in Hj.
  - pose proof (holders_insert (pcs s) i PcFetch (PcRelease (Some e)) Hi) as Hh.
    assert (i < length (pcs s)) as Hil by by eapply lookup_lt_Some.
    assert (p ∈ profiles) as Hin by (apply list_elem_of_lookup; eauto).
    split; simpl; [| done | | done | done | | | done].
    + by rewrite length_insert.
    + unfold holders in *. simpl in *. lia.
    + intros j p' Hp'. rewrite (Hres j p' Hp'). f_equal.
      destruct (decide (i = j)) as [<-|Hne]; [|by rewrite slot_insert_ne].
      rewrite Hi. rewrite list_lookup_insert_eq by lia. simpl.
      rewrite Hp in Hp'. injection Hp' as <-.
      unfold Coordinator.slot. by rewrite Hf.
    + intros j e' Hj.
      destruct (decide (i = j)) as [<-|Hne].
      * rewrite list_lookup_insert_eq in Hj by lia.
        injection Hj as <-. eauto.
      * rewrite list_lookup_insert_ne in Hj by done. by apply (Hpend j).
  - pose proof (holders_insert (pcs s) i (PcRelease ret) PcDone Hi) as Hh.
    assert (i < length (pcs s)) as Hil by by eapply lookup_lt_Some.
    split; simpl; [| done | | lia | done | | | ].
    + by rewrite length_insert.
    + unfold holders in *. simpl in *. lia.
    + intros j p' Hp'. rewrite (Hres j p' Hp'). f_equal.
      destruct (decide (i = j)) as [<-|Hne]; [|by rewrite slot_insert_ne].
      rewrite Hi. by rewrite list_lookup_insert_eq by lia.
    + intros j e Hj. apply (Hpend j e).
      destruct (decide (i = j)) as [<-|Hne].
      * by rewrite list_lookup_insert_eq in Hj by lia.
      * by rewrite list_lookup_insert_ne in Hj.
    + intros e He. destruct (egerr s) as [e1|] eqn:He1.
      * apply Herr. congruence.
      * subst ret. by apply (Hpend i e).
Qed.

Lemma reachable_inv s : reachable s → inv s.
Proof.
  unfold Coordinator.reachable. intros Hrun.
  apply rtc_ind_r with (x := init profiles) (P := inv) in Hrun;
    [done|apply inv_init|].
  intros s1 s2 _ Hstep Hinv. by eapply inv_step.
Qed.

(** When [eg.Wait()] returns, [results] holds what each task left, at
    the task's own index, whatever the order in which the tasks ran. *)
Lemma settled_results s :
  reachable s → settled profiles s → results s = fetched fetch profiles.
Proof.
  intros [Hlen Hbound _ _ Hrlen Hres _ _]%reachable_inv [Hall Hdone].
  apply list_eq. intros i. unfold fetched. rewrite list_lookup_imap.
  destruct (profiles !! i) as [p|] eqn:Hp; simpl.
  - rewrite (Hres i p Hp). f_equal.
    assert (i < length (pcs s)) as Hi.
    { apply lookup_lt_Some in Hp. lia. }
    destruct (lookup_lt_is_Some_2 _ _ Hi) as [q Hq]. rewrite Hq.
    rewrite Forall_forall in Hdone.
    rewrite (Hdone q); [done|]. apply list_elem_of_lookup; eauto.
  - apply lookup_ge_None. apply lookup_ge_None in Hp. lia.
Qed.

(** No error is kept when no fetch fails. *)
Lemma all_fetched_no_error s :
  reachable s → all_fetched fetch profiles → egerr s = None.
Proof.
  intros [_ _ _ _ _ _ _ Herr]%reachable_inv Hall.
  destruct (egerr s) as [e|] eqn:He; [|done].
  destruct (Herr e eq_refl) as (p & Hp & Hf).
  destruct (Hall p Hp) as (h & r & Hok). congruence.
Qed.

Lemma fetched_positional :
  all_fetched fetch profiles → Merge.positional 0 (fetched fetch profiles).
Proof.
  intros Hall i a. unfold fetched. rewrite list_lookup_imap.
  destruct (profiles !! i) as [p|] eqn:Hp; simpl; [|done].
  intros [= <-]. unfold Coordinator.slot.
  destruct (Hall p) as (h & r & ->); [|simpl; lia].
  apply list_elem_of_lookup; eauto.
Qed.

(** The rows of the merged table, profile by profile. *)
Lemma data_rows_fetched excl k :
  all_fetched fetch profiles →
  Merge.data_rows excl k (fetched fetch profiles) = grouped fetch profiles excl k.
Proof.
  unfold all_fetched, fetched, grouped, Merge.data_rows.
  generalize 0 as n. intros n Hall.
  assert (∀ n l, (∀ p, p ∈ l → ∃ h r, fetch p = Ok (h, r)) →
    Merge.rows_of excl k <$> imap (λ i, slot (n + i)) l
    = (λ p, (λ row, p :: row)
              <$> filter (λ row, Merge.kept excl k row = true)
                         (payload fetch p).2) <$> l) as Hgen.
  { clear. intros n l. revert n.
    induction l as [|p l IH]; intros n Hall; [done|].
    rewrite imap_cons, !fmap_cons. f_equal.
    - unfold Coordinator.slot, payload, Merge.rows_of.
      destruct (Hall p) as (h & r & ->); [left|]. done.
    - rewrite <- (IH (S n)).
      + f_equal. apply imap_ext. intros i x _. simpl. f_equal. lia.
      + intros q Hq. apply Hall. by right. }
  f_equal. rewrite <- (Hgen 0 profiles Hall). f_equal.
Qed.

(** The tasks may run one after the other. *)
Lemma one_by_one n :
  (∀ p msg, p ∈ profiles → fetch p ≠ Panic msg) →
  n ≤ length profiles →
  ∃ res err, reachable (State n (replicate n PcDone) 0 res err).
Proof.
  intros Hreturns. induction n as [|n IH]; intros Hn.
  - eexists _, _. apply rtc_refl.
  - destruct IH as (res & err & Hrun); [lia|].
    destruct (lookup_lt_is_Some_2 profiles n) as [p Hp]; [lia|].
    assert (p ∈ profiles) as Hin by (apply list_elem_of_lookup; eauto).
    set (s1 := State (S n) (replicate n PcDone ++ [PcSend]) 0 res err).
    assert (reachable s1) as Hrun1.
    { eapply rtc_r; [exact Hrun|].
      apply (step_go fetch profiles (State n (replicate n PcDone) 0 res err)).
      simpl. lia. }
    assert (∀ q q' : pc,
      <[n := q]> (replicate n PcDone ++ [q']) = replicate n PcDone ++ [q])
      as Hins.
    { intros q q'. rewrite insert_app_r_alt by (rewrite length_replicate; lia).
      by rewrite length_replicate, Nat.sub_diag. }
    assert (∀ q : pc, (replicate n PcDone ++ [q]) !! n = Some q) as Hlook.
    { intros q. rewrite lookup_app_r by (rewrite length_replicate; lia).
      by rewrite length_replicate, Nat.sub_diag. }
    set (s2 := State (S n) (replicate n PcDone ++ [PcFetch]) 1 res err).
    assert (reachable s2) as Hrun2.
    { eapply rtc_r; [exact Hrun1|]. unfold s2. rewrite <- (Hins PcFetch PcSend).
      apply (step_send fetch profiles s1 n); [apply Hlook|].
      unfold sem_cap. simpl. lia. }
    assert (∃ res' ret,
      reachable (State (S n) (replicate n PcDone ++ [PcRelease ret]) 1 res' err))
      as (res' & ret & Hrun3).
    { destruct (fetch p) as [[h r]|e|msg] eqn:Hf.
      - eexists _, None. eapply rtc_r; [exact Hrun2|].
        rewrite <- (Hins (PcRelease None) PcFetch).
        apply (step_fetch_ok fetch profiles s2 n p h r); [apply Hlook|done|done|].
        apply reachable_inv in Hrun2 as [_ _ _ _ Hrlen _ _ _]. simpl in *. lia.
      - eexists _, (Some e). eapply rtc_r; [exact Hrun2|].
        rewrite <- (Hins (PcRelease (Some e)) PcFetch).
        by apply (step_fetch_err fetch profiles s2 n p e); [apply Hlook| |].
      - by destruct (Hreturns p msg Hin). }
    eexists res', _. eapply rtc_r; [exact Hrun3|].
    rewrite replicate_S_end, <- (Hins PcDone (PcRelease ret)).
    apply (step_recv fetch profiles
             (State (S n) (replicate n PcDone ++ [PcRelease ret]) 1 res' err)
             n ret);
      [apply Hlook|simpl; lia].
Qed.

(** When no fetch panics, [eg.Wait()] can return. *)
Lemma run_settles :
  (∀ p msg, p ∈ profiles → fetch p ≠ Panic msg) →
  ∃ s, reachable s ∧ settled profiles s.
Proof.
  intros Hreturns.
  destruct (one_by_one (length profiles) Hreturns) as (res & err & Hrun); [lia|].
  eexists. split; [exact Hrun|]. split; [done|]. simpl.
  apply Forall_forall. by intros q [-> _]%elem_of_replicate.
Qed.

End Run.

End CoordinatorFacts.

(** * The properties of the specification *)

Module DedupCorrect.
Import Dedup DedupFacts.

(** C5: for every input list of profile identifiers, the working set
    contains each distinct identifier exactly once (it has no duplicate and
    the same members as the input), ordered by first appearance in the
    input; the input [a, b, a, c, b] yields [a, b, c]. *)
Theorem dedup_first_appearance (profiles : list string) :
  NoDup (dedup profiles)
  ∧ (∀ x, x ∈ dedup profiles ↔ x ∈ profiles)
  ∧ (∀ i j x y,
       dedup profiles !! i = Some x → dedup profiles !! j = Some y → i < j →
       ∃ a b, first_index x profiles = Some a
              ∧ first_index y profiles = Some b ∧ a < b)
  ∧ dedup ["a"; "b"; "a"; "c"; "b"] = ["a"; "b"; "c"].
Proof.
  split_and!.
  - apply dedup_NoDup.
  - intros x. apply dedup_elem.
  - apply dedup_order.
  - by vm_compute.
Qed.

End DedupCorrect.

Module FetcherCorrect.
Import Fetcher FetcherFacts.

Section Service.
Context {Cfg : Type}.
Variable LoadDefaultConfig : string → sdk_error + Cfg.
Variable GenerateCredentialReport : Cfg → sdk_error + unit.
Variable GetCredentialReport : Cfg → nat → sdk_error + string.
Variable csv_ReadAll : string → sdk_error + list (list string).

Local Abbreviation fetch :=
  (fetch LoadDefaultConfig GenerateCredentialReport GetCredentialReport csv_ReadAll).
Local Abbreviation calls :=
  (calls LoadDefaultConfig GenerateCredentialReport GetCredentialReport csv_ReadAll).
Local Abbreviation parse := (parse csv_ReadAll).

(** C4: every fetch retrieves at most 10 times and requests the generation
    at most once; a fetch whose profile loads requests it exactly once. If
    the generation request fails the fetch fails without any retrieval.
    Otherwise, if the retrieval number [k < 10] is the first to succeed (so
    also when the first 9 fail and the 10th succeeds), the fetch goes on
    with the payload of that retrieval, after [k] failed retrievals and
    their sleeps; and if all 10 retrievals fail, the fetch returns the error
    that wraps the error of the last one. *)
Theorem retrieval_retried_generation_once (profile : string) :
  count EvGet (calls profile) ≤ 10
  ∧ count EvGenerate (calls profile) ≤ 1
  ∧ ∀ cfg, LoadDefaultConfig profile = inr cfg →
      count EvGenerate (calls profile) = 1
      ∧ (∀ e, GenerateCredentialReport cfg = inl e →
           fetch profile = Fail (ErrGenerate profile e)
           ∧ calls profile = [EvGenerate])
      ∧ (∀ u, GenerateCredentialReport cfg = inr u →
           (∀ k content,
              k < 10 →
              (∀ n, n < k → ∃ e, GetCredentialReport cfg n = inl e) →
              GetCredentialReport cfg k = inr content →
              fetch profile = parse profile content
              ∧ calls profile = EvGenerate :: failed_attempts k ++ [EvGet])
           ∧ (∀ e,
                (∀ n, n < 10 → ∃ e', GetCredentialReport cfg n = inl e') →
                GetCredentialReport cfg 9 = inl e →
                fetch profile = Fail (ErrFetch profile e)
                ∧ calls profile = EvGenerate :: failed_attempts 10)).
Proof.
  destruct (LoadDefaultConfig profile) as [e0|cfg] eqn:Hcfg.
  { assert (calls profile = []) as ->.
    { unfold Fetcher.calls, generateCredentialReport. by rewrite Hcfg. }
    split_and!; [by vm_compute; lia|by vm_compute; lia|done]. }
  destruct (GenerateCredentialReport cfg) as [e|u] eqn:Hgen.
  - assert (fetch profile = Fail (ErrGenerate profile e)
            ∧ calls profile = [EvGenerate]) as [Hf Hc].
    { unfold Fetcher.fetch, Fetcher.calls, generateCredentialReport.
      rewrite Hcfg. unfold client_GenerateCredentialReport, emit.
      generalize (Fetcher.poll GetCredentialReport cfg 10 None). intros m.
      unfold mbind, M_bind, mret, M_ret. simpl. by rewrite Hgen. }
    rewrite Hc. split_and!; [by vm_compute; lia|by vm_compute|].
    intros cfg' [= <-]. rewrite Hgen. split_and!; [done| |done].
    intros e' [= <-]. by rewrite Hf.
  - destruct (generateCredentialReport_polled LoadDefaultConfig
                GenerateCredentialReport GetCredentialReport csv_ReadAll
                profile cfg u Hcfg Hgen) as [Hf Hc].
    destruct (poll_counts GetCredentialReport cfg 10 None [EvGenerate])
      as [Hget Hgenerate].
    change (count EvGet [EvGenerate]) with 0 in Hget.
    change (count EvGenerate [EvGenerate]) with 1 in Hgenerate.
    rewrite Hc. split_and!; [lia|lia|].
    intros cfg' [= <-]. rewrite Hgen. split_and!; [done|done|].
    intros _ _. split.
    + intros k content Hk Hfail Hok.
      rewrite Hf.
      by rewrite (poll_success GetCredentialReport cfg k 10 None
                    [EvGenerate] content).
    + intros e Hfail Hlast.
      rewrite Hf.
      by rewrite (poll_exhausted GetCredentialReport cfg 9 None
                    [EvGenerate] e).
Qed.

End Service.

(** Nine failed retrievals, then the report: the fetch returns it. *)
Lemma tenth_retrieval_succeeds :
  fetch Examples.load_ok Examples.generate_ok Examples.ready_at_tenth
        Examples.read_all "prod"
  = Ok (["user"; "arn"], [])
  ∧ calls Examples.load_ok Examples.generate_ok Examples.ready_at_tenth
          Examples.read_all "prod"
    = EvGenerate :: failed_attempts 9 ++ [EvGet].
Proof.
  destruct (retrieval_retried_generation_once Examples.load_ok
              Examples.generate_ok Examples.ready_at_tenth Examples.read_all
              "prod") as (_ & _ & Hloaded).
  destruct (Hloaded "prod" eq_refl) as (_ & _ & Hrun).
  destruct (Hrun tt eq_refl) as [Hok _].
  apply (Hok 9 "user,arn").
  - lia.
  - intros n Hn. exists (SdkError "ReportNotReady").
    unfold Examples.ready_at_tenth.
    destruct (Nat.ltb_spec n 9); [reflexivity|lia].
  - reflexivity.
Defined.

(** Ten failed retrievals: the fetch fails with the error of the tenth, after
    ten sleeps. *)
Example all_retrievals_fail :
  generateCredentialReport Examples.load_ok Examples.generate_ok
    Examples.never_ready Examples.read_all "prod" []
  = (Fail (ErrFetch "prod" (SdkError "ReportInProgress")),
     EvGenerate :: failed_attempts 10).
Proof. reflexivity. Qed.

End FetcherCorrect.

Module MergeCorrect.
Import Merge ListFacts MergeFacts.

(** C9: the merge of an empty result list is the empty table; the merge of
    a non-empty list, whenever it produces a table, produces one whose first
    row is the column [profile] followed by the header of the first result,
    and it does produce a table when that header has an [arn] column and the
    filter can read that column in every row. *)
Theorem merged_header (ExcludeRoot : bool) :
  merge ExcludeRoot [] = Ok []
  ∧ ∀ first rest,
      (∀ table, merge ExcludeRoot (first :: rest) = Ok table →
         ∃ data, table = ("profile" :: header first) :: data)
      ∧ (∀ k, first_index "arn" (header first) = Some k →
           (ExcludeRoot = true → wide_enough k (first :: rest)) →
           ∃ data,
             merge ExcludeRoot (first :: rest)
             = Ok (("profile" :: header first) :: data)).
Proof.
  split; [by destruct ExcludeRoot|].
  intros first rest. rewrite merge_unfold. split.
  - intros table. destruct (first_index "arn" (header first)) as [k|]; [|done].
    destruct (indexable ExcludeRoot k (first :: rest)); [|done].
    intros [= <-]. eauto.
  - intros k -> Hwide. rewrite indexable_wide by done. eauto.
Qed.

(** C7: when the result list is not empty and the header of its first
    result has no column named [arn], the merge stops the program with the
    message of line 139, whether root exclusion was requested or not. *)
Theorem arn_column_required (ExcludeRoot : bool) (first : profileResult)
    (rest : list profileResult) :
  "arn" ∉ header first →
  merge ExcludeRoot (first :: rest) = Fail UnableToLocateArn.
Proof.
  intros Hno. rewrite merge_unfold.
  by rewrite (proj2 (first_index_None "arn" (header first)) Hno).
Qed.

(** Without the exclude-root flag, a report that lacks the column still
    stops the run. *)
Lemma arn_column_required_without_flag :
  merge false [Examples.no_arn] = Fail UnableToLocateArn.
Proof.
  apply (arn_column_required false Examples.no_arn []).
  simpl. rewrite !not_elem_of_cons. split_and!; [done|done|].
  apply not_elem_of_nil.
Defined.

(** C2, as the claim states it, fails: two results whose headers differ are
    merged, the rows of the second under the header of the first. *)
Lemma mismatched_headers_are_merged :
  header Examples.users ≠ header Examples.keys
  ∧ merge false [Examples.users; Examples.keys]
    = Ok [ ["profile"; "user"; "arn"];
           ["a"; "alice"; "arn:aws:iam::1:user/alice"];
           ["b"; "arn:aws:iam::2:user/bob"; "k1"; "7"] ]
  ∧ merge true [Examples.users; Examples.keys]
    = Ok [ ["profile"; "user"; "arn"];
           ["a"; "alice"; "arn:aws:iam::1:user/alice"];
           ["b"; "arn:aws:iam::2:user/bob"; "k1"; "7"] ].
Proof. split_and!; [discriminate|reflexivity|reflexivity]. Qed.

(** C2, amended: the merge reads the header of the first result only. The
    headers of the other results play no part: replacing them by any others
    leaves the outcome of the merge unchanged, so results whose headers
    differ are merged all the same. *)
Theorem later_headers_ignored (ExcludeRoot : bool) (first : profileResult)
    (rest : list profileResult) (f : profileResult → list string) :
  merge ExcludeRoot (first :: ((λ res, with_header (f res) res) <$> rest))
  = merge ExcludeRoot (first :: rest).
Proof.
  rewrite !merge_unfold.
  destruct (first_index "arn" (header first)) as [k|]; [|done].
  rewrite indexable_cons, (indexable_cons _ _ first rest).
  rewrite data_rows_cons, (data_rows_cons _ _ first rest).
  by rewrite indexable_with_header, data_rows_with_header.
Qed.

(** C3: when the header of the first result has its [arn] column at [k] and
    every row is as long as that header, the merge produces the header row
    followed by the rows of the results, each one its profile followed by the
    cells of a source row, unchanged. With exclude-root a source row is
    absent if and only if its cell in column [k] ends with [:root]; without
    it every source row is present. *)
Theorem root_rows_filtered (ExcludeRoot : bool) (first : profileResult)
    (rest : list profileResult) (k : nat) :
  first_index "arn" (header first) = Some k →
  (∀ res row, res ∈ first :: rest → row ∈ rows res →
     length row = length (header first)) →
  ∃ data,
    merge ExcludeRoot (first :: rest) = Ok (("profile" :: header first) :: data)
    ∧ data = data_rows ExcludeRoot k (first :: rest)
    ∧ (∀ line, line ∈ data →
         ∃ res row, res ∈ first :: rest ∧ row ∈ rows res
                    ∧ line = profile res :: row)
    ∧ (∀ res row, res ∈ first :: rest → row ∈ rows res →
         if ExcludeRoot
         then profile res :: row ∉ data
              ↔ ∃ cell, row !! k = Some cell ∧ HasSuffix cell ":root" = true
         else profile res :: row ∈ data).
Proof.
  intros Harn Haligned.
  assert (k < length (header first)) as Hk.
  { apply first_index_lookup in Harn as [Hc _]. by eapply lookup_lt_Some. }
  exists (data_rows ExcludeRoot k (first :: rest)). split_and!.
  - rewrite merge_unfold, Harn. rewrite indexable_wide; [done|].
    intros _ res row Hres Hrow. by rewrite (Haligned res row).
  - done.
  - intros line (res & row & Hres & Hrow & _ & ->)%elem_of_data_rows. eauto.
  - intros res row Hres Hrow.
    assert (∃ cell, row !! k = Some cell) as [cell Hcell].
    { apply lookup_lt_is_Some_2. by rewrite (Haligned res row). }
    destruct ExcludeRoot.
    + rewrite elem_of_data_rows. split.
      * intros Habsent. exists cell. split; [done|].
        destruct (HasSuffix cell ":root") eqn:Hroot; [done|].
        exfalso. apply Habsent. exists res, row. split_and!; try done.
        unfold kept, is_root. by rewrite Hcell, Hroot.
      * intros (cell' & Hcell' & Hroot) (res' & row' & _ & _ & Hkept & [= _ <-]).
        unfold kept, is_root in Hkept. by rewrite Hcell', Hroot in Hkept.
    + apply elem_of_data_rows. exists res, row. by split_and!.
Qed.

(** The end-to-end example of the specification: with exclude-root the root
    row of [acct2] is dropped and the row of [acct1] is kept. *)
Lemma root_rows_filtered_two_accounts :
  ∃ data,
    merge true [Examples.acct1; Examples.acct2]
    = Ok (["profile"; "user"; "arn"; "active"] :: data)
    ∧ data = [["acct1"; "alice"; "arn:aws:iam::1:user/alice"; "true"]].
Proof.
  destruct (root_rows_filtered true Examples.acct1 [Examples.acct2] 1)
    as (data & Hmerge & Hdata & _).
  - reflexivity.
  - intros res row Hres Hrow.
    apply elem_of_cons in Hres as [->|Hres].
    + simpl in Hrow. by apply list_elem_of_singleton in Hrow as ->.
    + apply list_elem_of_singleton in Hres as ->.
      simpl in Hrow. by apply list_elem_of_singleton in Hrow as ->.
  - exists data. split; [exact Hmerge|]. rewrite Hdata. reflexivity.
Defined.

End MergeCorrect.

Module CoordinatorCorrect.
Import Coordinator CoordinatorFacts.

Section Run.
Variable fetch : string → outcome error report.
Variable profiles : list string.

Local Abbreviation step := (step fetch profiles).
Local Abbreviation reachable := (reachable fetch profiles).

(** C10: in every state of a run the tasks that hold the gate are as many
    as the elements buffered in [sem], at most 4. One task is launched per
    profile: there are never more tasks than profiles, and exactly as many
    when [eg.Wait()] returns. While 4 tasks hold the gate no waiting task
    gets past its send; a waiting task can get past it as soon as fewer than
    4 hold the gate, and a task that has returned can always release its
    slot. *)
Theorem at_most_four_hold_the_gate (s : state) :
  reachable s →
  holders s = sem s
  ∧ holders s ≤ 4
  ∧ length (pcs s) = launched s
  ∧ launched s ≤ length profiles
  ∧ (settled profiles s → length (pcs s) = length profiles)
  ∧ (holders s = 4 →
     ∀ s' i, step s s' → pcs s !! i = Some PcSend → pcs s' !! i = Some PcSend)
  ∧ (holders s < 4 →
     ∀ i, pcs s !! i = Some PcSend →
          ∃ s', step s s' ∧ pcs s' !! i = Some PcFetch
                ∧ holders s' = S (holders s))
  ∧ (∀ i ret, pcs s !! i = Some (PcRelease ret) →
          ∃ s', step s s' ∧ pcs s' !! i = Some PcDone
                ∧ S (holders s') = holders s).
Proof.
  intros Hrun. pose proof (reachable_inv fetch profiles s Hrun) as Hinv.
  destruct Hinv as [Hlen Hbound Hhold Hcap Hrlen Hres Hpend Herr].
  unfold sem_cap in Hcap. split_and!; try done.
  - lia.
  - intros [Hall _]. lia.
  - intros Hfull s' i Hstep Hi.
    destruct Hstep as [s Hlt | s j Hj Hfree | s j p h r Hj Hp Hf Hjr
                      | s j p e Hj Hp Hf | s j ret Hj Hpos]; simpl.
    + rewrite lookup_app_l; [done|]. by eapply lookup_lt_Some.
    + unfold sem_cap in Hfree. lia.
    + rewrite list_lookup_insert_ne; [done|]. intros <-. congruence.
    + rewrite list_lookup_insert_ne; [done|]. intros <-. congruence.
    + rewrite list_lookup_insert_ne; [done|]. intros <-. congruence.
  - intros Hfree i Hi.
    assert (i < length (pcs s)) as Hil by by eapply lookup_lt_Some.
    eexists. split; [apply (step_send fetch profiles s i Hi)|].
    + unfold sem_cap. lia.
    + simpl. split; [by apply list_lookup_insert_eq|].
      pose proof (holders_insert (pcs s) i PcSend PcFetch Hi) as Hh.
      unfold holders in *. simpl in *. lia.
  - intros i ret Hi.
    assert (i < length (pcs s)) as Hil by by eapply lookup_lt_Some.
    pose proof (holders_insert (pcs s) i (PcRelease ret) PcDone Hi) as Hh.
    assert (0 < holders s) as Hpos.
    { unfold holders. apply list_elem_of_lookup_2 in Hi.
      assert (PcRelease ret ∈ filter (λ p, holds_gate p = true) (pcs s)) as Hin
        by by apply list_elem_of_filter.
      destruct (filter _ (pcs s)); [by apply elem_of_nil in Hin|simpl; lia]. }
    eexists. split; [apply (step_recv fetch profiles s i ret Hi); lia|].
    simpl. split; [by apply list_lookup_insert_eq|].
    unfold holders in *. simpl in *. lia.
Qed.

End Run.

(** Five profiles, four of them being fetched: the gate is full and the
    fifth task waits. *)
Lemma gate_full_reachable fetch :
  reachable fetch Examples.five Examples.gate_full.
Proof.
  unfold reachable.
  eapply rtc_l; [by apply step_go; simpl; lia|]. simpl.
  eapply rtc_l; [by apply step_go; simpl; lia|]. simpl.
  eapply rtc_l; [by apply step_go; simpl; lia|]. simpl.
  eapply rtc_l; [by apply step_go; simpl; lia|]. simpl.
  eapply rtc_l; [by apply step_go; simpl; lia|]. simpl.
  eapply rtc_l; [by apply (step_send _ _ _ 0); [|unfold sem_cap; simpl; lia]|]. simpl.
  eapply rtc_l; [by apply (step_send _ _ _ 1); [|unfold sem_cap; simpl; lia]|]. simpl.
  eapply rtc_l; [by apply (step_send _ _ _ 2); [|unfold sem_cap; simpl; lia]|]. simpl.
  eapply rtc_l; [by apply (step_send _ _ _ 3); [|unfold sem_cap; simpl; lia]|]. simpl.
  apply rtc_refl.
Defined.

(** With the gate full, no step of the run lets the fifth task past its
    send. *)
Lemma gate_full_blocks_fifth :
  holders Examples.gate_full = 4
  ∧ ∀ s' i, step Examples.two_accounts Examples.five Examples.gate_full s' →
            pcs Examples.gate_full !! i = Some PcSend →
            pcs s' !! i = Some PcSend.
Proof.
  destruct (at_most_four_hold_the_gate Examples.two_accounts Examples.five
              Examples.gate_full (gate_full_reachable Examples.two_accounts))
    as (_ & _ & _ & _ & _ & Hblocked & _).
  split; [reflexivity|]. apply Hblocked. reflexivity.
Defined.

End CoordinatorCorrect.

Module PipelineCorrect.
Import Coordinator CoordinatorFacts Merge MergeFacts SortFacts ListFacts.

Section Run.
Variable fetch : string → outcome error report.
Variable profiles : list string.

Local Abbreviation reachable := (reachable fetch profiles).
Local Abbreviation fetched := (fetched fetch profiles).
Local Abbreviation all_fetched := (all_fetched fetch profiles).
Local Abbreviation grouped := (grouped fetch profiles).
Local Abbreviation payload := (payload fetch).

(** What [main] does once [eg.Wait()] has returned without an error. *)
Lemma main_after_wait_fetched excl s :
  reachable s → settled profiles s → all_fetched →
  main_after_wait excl s = merge excl fetched.
Proof.
  intros Hrun Hsettled Hall. unfold main_after_wait.
  rewrite (all_fetched_no_error fetch profiles s Hrun Hall).
  rewrite (settled_results fetch profiles s Hrun Hsettled).
  by rewrite (sort_results_positional 0 fetched)
    by by apply fetched_positional.
Qed.

Lemma fetched_cons first rest :
  profiles = first :: rest →
  ∃ tl, fetched = slot fetch 0 first :: tl.
Proof. intros Hp. unfold Coordinator.fetched. rewrite Hp. simpl. eauto. Qed.

Lemma slot_header first :
  (∃ h r, fetch first = Ok (h, r)) → header (slot fetch 0 first) = (payload first).1.
Proof.
  intros (h & r & Hf). unfold slot, Coordinator.payload. by rewrite Hf.
Qed.

(** C1: take any run of the coordinator, that is any order in which the
    tasks are admitted, return and release, up to the state in which
    [eg.Wait()] returns, every fetch having returned a report. Then [results]
    holds the report of each profile at the profile's own position, the sort
    leaves it so (and so does any sorting algorithm that meets the contract
    of [sort.Slice]), and the data rows of the merged table are the rows of
    the profiles in request order, the rows of each profile in the order of
    its payload. The table exists when the first report has an [arn] column
    that the filter can read in every row. *)
Theorem merged_in_request_order (ExcludeRoot : bool) (s : state) :
  reachable s → settled profiles s → all_fetched →
  results s = fetched
  ∧ sort_results (results s) = fetched
  ∧ (∀ sorted, sorted ≡ₚ results s → sorted_by less_idx sorted → sorted = fetched)
  ∧ (∀ table, main_after_wait ExcludeRoot s = Ok table →
       ∃ k, tail table = grouped ExcludeRoot k
            ∧ ∀ first rest, profiles = first :: rest →
                first_index "arn" (payload first).1 = Some k)
  ∧ (∀ first rest k,
       profiles = first :: rest →
       first_index "arn" (payload first).1 = Some k →
       (ExcludeRoot = true → wide_enough k fetched) →
       main_after_wait ExcludeRoot s
       = Ok (("profile" :: (payload first).1) :: grouped ExcludeRoot k)).
Proof.
  intros Hrun Hsettled Hall.
  pose proof (settled_results fetch profiles s Hrun Hsettled) as Hres.
  pose proof (fetched_positional fetch profiles Hall) as Hpos.
  rewrite (main_after_wait_fetched ExcludeRoot s Hrun Hsettled Hall).
  split_and!.
  - done.
  - rewrite Hres. by apply (sort_results_positional 0).
  - intros sorted Hperm Hsorted. rewrite Hres in Hperm.
    by apply (sorted_by_unique fetched 0 sorted).
  - intros table Hmerge.
    assert (profiles = [] ∨ ∃ first rest, profiles = first :: rest)
      as [Hp | (first & rest & Hp)] by (destruct profiles; eauto).
    + exists 0. split; [|by rewrite Hp].
      unfold Coordinator.fetched in Hmerge. rewrite Hp in Hmerge.
      assert (table = []) as ->.
      { change (imap (slot fetch) []) with (@nil profileResult) in Hmerge.
        destruct ExcludeRoot; cbv in Hmerge; congruence. }
      unfold Coordinator.grouped. by rewrite Hp.
    + destruct (fetched_cons first rest Hp) as [tl Htl].
      assert (header (slot fetch 0 first) = (payload first).1) as Hhd.
      { apply slot_header. apply Hall. rewrite Hp. left. }
      rewrite Htl, merge_unfold, Hhd in Hmerge.
      destruct (first_index "arn" (payload first).1) as [k|] eqn:Hk; [|done].
      destruct (indexable ExcludeRoot k _); [|done].
      injection Hmerge as <-. exists k. split.
      * simpl. rewrite <- Htl. by apply data_rows_fetched.
      * intros first' rest' Hp'. rewrite Hp in Hp'. by injection Hp' as <- _.
  - intros first rest k Hp Hk Hwide.
    destruct (fetched_cons first rest Hp) as [tl Htl].
    assert (header (slot fetch 0 first) = (payload first).1) as Hhd.
    { apply slot_header. apply Hall. rewrite Hp. left. }
    rewrite Htl in *. rewrite merge_unfold, Hhd, Hk.
    rewrite indexable_wide by done.
    rewrite <- Htl. by rewrite data_rows_fetched.
Qed.

(** C8: when every fetch returns a report and the report of the first
    profile is the empty one (the empty payload: no header, no rows), every
    run ends in the fatal error of line 139, before the output file is
    created, whatever the other profiles hold and whether root exclusion was
    requested or not. *)
Theorem empty_first_report_is_fatal (ExcludeRoot : bool) (s : state)
    (first : string) (rest : list string) :
  profiles = first :: rest →
  reachable s → settled profiles s → all_fetched →
  fetch first = Ok ([], []) →
  main_after_wait ExcludeRoot s = Fail UnableToLocateArn.
Proof.
  intros Hp Hrun Hsettled Hall Hempty.
  rewrite (main_after_wait_fetched ExcludeRoot s Hrun Hsettled Hall).
  destruct (fetched_cons first rest Hp) as [tl ->].
  rewrite merge_unfold. unfold slot. by rewrite Hempty.
Qed.

End Run.

(** When every fetch returns a report, [main] has one outcome, the same for
    every run: the merge of the reports in the order of the de-duplicated
    request. *)
Lemma main_outcome fetch Profiles ExcludeRoot out :
  all_fetched fetch (Dedup.dedup Profiles) →
  main fetch Profiles ExcludeRoot out
  ↔ out = merge ExcludeRoot (fetched fetch (Dedup.dedup Profiles)).
Proof.
  intros Hall. unfold main. split.
  - intros (s & Hrun & Hsettled & ->).
    by apply main_after_wait_fetched.
  - intros ->.
    destruct (run_settles fetch (Dedup.dedup Profiles)) as (s & Hrun & Hsettled).
    { intros p msg Hp. destruct (Hall p Hp) as (h & r & ->). done. }
    exists s. split_and!; [done|done|].
    symmetry. by apply main_after_wait_fetched.
Qed.

(** A run of two tasks in which the second returns and releases before the
    first. *)
Lemma second_returns_first fetch p0 p1 h0 r0 h1 r1 :
  fetch p0 = Ok (h0, r0) → fetch p1 = Ok (h1, r1) →
  reachable fetch [p0; p1]
    (Examples.settled2 (ProfileResult 0 p0 h0 r0) (ProfileResult 1 p1 h1 r1)).
Proof.
  intros H0 H1. unfold reachable.
  eapply rtc_l; [by apply step_go; simpl; lia|]. simpl.
  eapply rtc_l; [by apply step_go; simpl; lia|]. simpl.
  eapply rtc_l; [by apply (step_send _ _ _ 0); [|unfold sem_cap; simpl; lia]|]. simpl.
  eapply rtc_l; [by apply (step_send _ _ _ 1); [|unfold sem_cap; simpl; lia]|]. simpl.
  eapply rtc_l; [by apply (step_fetch_ok _ _ _ 1 p1 h1 r1); [| | |simpl; lia]|]. simpl.
  eapply rtc_l; [by apply (step_recv _ _ _ 1 None); [|simpl; lia]|]. simpl.
  eapply rtc_l; [by apply (step_fetch_ok _ _ _ 0 p0 h0 r0); [| | |simpl; lia]|]. simpl.
  eapply rtc_l; [by apply (step_recv _ _ _ 0 None); [|simpl; lia]|]. simpl.
  apply rtc_refl.
Defined.

(** Both tasks are launched and done. *)
Lemma settled2_settled p0 p1 r0 r1 : settled [p0; p1] (Examples.settled2 r0 r1).
Proof. split; [reflexivity|]. repeat constructor. Defined.

(** The end-to-end example, the second account answering first. *)
Lemma merged_in_request_order_two_accounts :
  main_after_wait true (Examples.settled2 Examples.acct1 Examples.acct2)
  = Ok [ ["profile"; "user"; "arn"; "active"];
         ["acct1"; "alice"; "arn:aws:iam::1:user/alice"; "true"] ].
Proof.
  destruct (merged_in_request_order Examples.two_accounts ["acct1"; "acct2"]
              true (Examples.settled2 Examples.acct1 Examples.acct2))
    as (_ & _ & _ & _ & Htable).
  - by apply (second_returns_first Examples.two_accounts).
  - apply settled2_settled.
  - intros p Hp. unfold Examples.two_accounts.
    destruct (String.eqb p "acct1"); eauto.
  - apply (Htable "acct1" ["acct2"] 1); [reflexivity|reflexivity|].
    intros _ res row Hres Hrow.
    apply elem_of_cons in Hres as [->|Hres].
    + simpl in Hrow. apply list_elem_of_singleton in Hrow as ->. simpl. lia.
    + apply list_elem_of_singleton in Hres as ->.
      simpl in Hrow. apply list_elem_of_singleton in Hrow as ->. simpl. lia.
Defined.

(** An empty first payload stops a run whose second profile has data. *)
Lemma empty_first_report_is_fatal_with_data :
  main_after_wait false
    (Examples.settled2
       (ProfileResult 0 "empty" [] [])
       (ProfileResult 1 "prod" ["user"; "arn"]
                      [["alice"; "arn:aws:iam::1:user/alice"]]))
  = Fail UnableToLocateArn.
Proof.
  apply (empty_first_report_is_fatal Examples.empty_then_data ["empty"; "prod"]
           false _ "empty" ["prod"]).
  - reflexivity.
  - by apply (second_returns_first Examples.empty_then_data).
  - apply settled2_settled.
  - intros p Hp. unfold Examples.empty_then_data.
    destruct (String.eqb p "empty"); eauto.
  - reflexivity.
Defined.

End PipelineCorrect.

Module EmptyReportCorrect.
Import Fetcher FetcherFacts Merge MergeFacts.

Section Service.
Context {Cfg : Type}.
Variable LoadDefaultConfig : string → sdk_error + Cfg.
Variable GenerateCredentialReport : Cfg → sdk_error + unit.
Variable GetCredentialReport : Cfg → nat → sdk_error + string.
Variable csv_ReadAll : string → sdk_error + list (list string).

Local Abbreviation fetch :=
  (fetch LoadDefaultConfig GenerateCredentialReport GetCredentialReport csv_ReadAll).

(** C6: a fetch that retrieves a payload without any record returns an empty
    header and no rows, not an error, and one that retrieves a header alone
    returns that header and no rows. In the merge a result without rows that
    comes first gives the table its header and no data row (its header
    having the [arn] column, and the filter being able to read the rows of
    the other results); one that comes later changes nothing at all: the
    outcome is the outcome of the merge without it. *)
Theorem empty_reports_tolerated :
  (∀ profile cfg u k content,
     LoadDefaultConfig profile = inr cfg →
     GenerateCredentialReport cfg = inr u →
     k < 10 →
     (∀ n, n < k → ∃ e, GetCredentialReport cfg n = inl e) →
     GetCredentialReport cfg k = inr content →
     (csv_ReadAll content = inr [] → fetch profile = Ok ([], []))
     ∧ (∀ h, csv_ReadAll content = inr [h] → fetch profile = Ok (h, [])))
  ∧ (∀ ExcludeRoot res post k,
       rows res = [] →
       first_index "arn" (header res) = Some k →
       (ExcludeRoot = true → wide_enough k post) →
       merge ExcludeRoot (res :: post)
       = Ok (("profile" :: header res) :: data_rows ExcludeRoot k post))
  ∧ (∀ ExcludeRoot first pre res post,
       rows res = [] →
       merge ExcludeRoot (first :: pre ++ res :: post)
       = merge ExcludeRoot (first :: pre ++ post)).
Proof.
  split_and!.
  - intros profile cfg u k content Hcfg Hgen Hk Hfail Hok.
    destruct (generateCredentialReport_polled LoadDefaultConfig
                GenerateCredentialReport GetCredentialReport csv_ReadAll
                profile cfg u Hcfg Hgen) as [Hf _].
    rewrite (poll_success GetCredentialReport cfg k 10 None [EvGenerate] content)
      in Hf by done.
    simpl in Hf. unfold parse in Hf. rewrite Hf.
    split; [by intros ->|]. by intros h ->.
  - intros excl res post k Hrows Harn Hwide.
    rewrite merge_unfold, Harn, indexable_cons, data_rows_cons.
    rewrite (indexable_wide excl k post) by done.
    unfold indexable, rows_of. cbn [forallb]. rewrite !Hrows.
    by destruct excl.
  - intros excl first pre res post Hrows.
    rewrite !merge_unfold.
    destruct (first_index "arn" (header first)) as [k|]; [|done].
    rewrite !app_comm_cons.
    by rewrite indexable_no_rows, data_rows_no_rows.
Qed.

End Service.

(** An empty payload and a payload of a header alone are fetched without
    error, and the header alone makes a table of one row. *)
Lemma empty_reports_tolerated_at_once :
  fetch Examples.load_ok Examples.generate_ok Examples.ready_at_once
        Examples.read_all "empty" = Ok ([], [])
  ∧ fetch Examples.load_ok Examples.generate_ok Examples.ready_at_once
          Examples.read_all "idle" = Ok (["user"; "arn"], [])
  ∧ merge true [ProfileResult 0 "idle" ["user"; "arn"] []]
    = Ok [["profile"; "user"; "arn"]].
Proof.
  destruct (empty_reports_tolerated Examples.load_ok Examples.generate_ok
              Examples.ready_at_once Examples.read_all)
    as (Hfetch & Hfirst & _).
  split_and!.
  - destruct (Hfetch "empty" "empty" tt 0 "") as [Hempty _];
      [reflexivity|reflexivity|lia|intros n Hn; lia|reflexivity|].
    apply Hempty. reflexivity.
  - destruct (Hfetch "idle" "idle" tt 0 "user,arn") as [_ Hheader];
      [reflexivity|reflexivity|lia|intros n Hn; lia|reflexivity|].
    apply Hheader. reflexivity.
  - apply (Hfirst true (ProfileResult 0 "idle" ["user"; "arn"] []) [] 1);
      [reflexivity|reflexivity|].
    intros _ res row Hres. by apply elem_of_nil in Hres.
Defined.

End EmptyReportCorrect.

(** * Further properties of the code *)

Module FetcherMore.
Import Fetcher FetcherFacts.

(** Either some answer among the first [fuel] is a report, and then one of
    them is the first, or none is. *)
Lemma first_success (answer : nat → sdk_error + string) (fuel : nat) :
  (∃ k content, k < fuel ∧ (∀ n, n < k → ∃ e, answer n = inl e)
                ∧ answer k = inr content)
  ∨ (∀ n, n < fuel → ∃ e, answer n = inl e).
Proof.
  induction fuel as [|fuel [(k & content & Hk & Hfail & Hok)|Hnone]].
  - right. intros n Hn. lia.
  - left. exists k, content. split_and!; [lia|done|done].
  - destruct (answer fuel) as [e|content] eqn:Hlast.
    + right. intros n Hn. destruct (decide (n = fuel)) as [->|Hne]; [eauto|].
      apply Hnone. lia.
    + left. exists fuel, content. split_and!; [lia|done|done].
Qed.

Section Service.
Context {Cfg : Type}.
Variable LoadDefaultConfig : string → sdk_error + Cfg.
Variable GenerateCredentialReport : Cfg → sdk_error + unit.
Variable GetCredentialReport : Cfg → nat → sdk_error + string.
Variable csv_ReadAll : string → sdk_error + list (list string).

Local Abbreviation fetch :=
  (fetch LoadDefaultConfig GenerateCredentialReport GetCredentialReport csv_ReadAll).
Local Abbreviation calls :=
  (calls LoadDefaultConfig GenerateCredentialReport GetCredentialReport csv_ReadAll).
Local Abbreviation parse := (parse csv_ReadAll).

(** The four ways through [generateCredentialReport]. *)
Lemma fetch_cases (profile : string) :
  (∃ e, LoadDefaultConfig profile = inl e
        ∧ fetch profile = Fail (ErrLoadingProfile profile e)
        ∧ calls profile = [])
  ∨ (∃ cfg e, LoadDefaultConfig profile = inr cfg
              ∧ GenerateCredentialReport cfg = inl e
              ∧ fetch profile = Fail (ErrGenerate profile e)
              ∧ calls profile = [EvGenerate])
  ∨ (∃ cfg k content,
       LoadDefaultConfig profile = inr cfg
       ∧ k < 10
       ∧ (∀ n, n < k → ∃ e, GetCredentialReport cfg n = inl e)
       ∧ GetCredentialReport cfg k = inr content
       ∧ fetch profile = parse profile content
       ∧ calls profile = EvGenerate :: failed_attempts k ++ [EvGet])
  ∨ (∃ cfg e,
       LoadDefaultConfig profile = inr cfg
       ∧ (∀ n, n < 10 → ∃ e', GetCredentialReport cfg n = inl e')
       ∧ GetCredentialReport cfg 9 = inl e
       ∧ fetch profile = Fail (ErrFetch profile e)
       ∧ calls profile = EvGenerate :: failed_attempts 10).
Proof.
  destruct (LoadDefaultConfig profile) as [e0|cfg] eqn:Hcfg.
  { left. exists e0. split; [done|].
    unfold Fetcher.fetch, Fetcher.calls, generateCredentialReport.
    by rewrite Hcfg. }
  right. destruct (GenerateCredentialReport cfg) as [e|u] eqn:Hgen.
  { left. exists cfg, e. split_and!; [done|done| |].
    - unfold Fetcher.fetch, generateCredentialReport.
      rewrite Hcfg. unfold client_GenerateCredentialReport, emit.
      generalize (Fetcher.poll GetCredentialReport cfg 10 None). intros m.
      unfold mbind, M_bind, mret, M_ret. simpl. by rewrite Hgen.
    - unfold Fetcher.calls, generateCredentialReport.
      rewrite Hcfg. unfold client_GenerateCredentialReport, emit.
      generalize (Fetcher.poll GetCredentialReport cfg 10 None). intros m.
      unfold mbind, M_bind, mret, M_ret. simpl. by rewrite Hgen. }
  right.
  destruct (generateCredentialReport_polled LoadDefaultConfig
              GenerateCredentialReport GetCredentialReport csv_ReadAll
              profile cfg u Hcfg Hgen) as [Hf Hc].
  destruct (first_success (GetCredentialReport cfg) 10)
    as [(k & content & Hk & Hfail & Hok)|Hnone].
  - left. exists cfg, k, content.
    rewrite (poll_success GetCredentialReport cfg k 10 None [EvGenerate] content)
      in Hf, Hc by done.
    by split_and!.
  - right. destruct (Hnone 9 ltac:(lia)) as [e He]. exists cfg, e.
    rewrite (poll_exhausted GetCredentialReport cfg 9 None [EvGenerate] e)
      in Hf, Hc by done.
    by split_and!.
Qed.

(** X1: whatever the service answers, a fetch does not panic (the report
    is read only after a retrieval succeeded), and an error it returns
    names the profile that was being fetched. *)
Theorem fetch_errors_name_the_profile (profile : string) :
  (∀ msg, fetch profile ≠ Panic msg)
  ∧ (∀ e, fetch profile = Fail e → error_profile e = profile).
Proof.
  destruct (fetch_cases profile)
    as [(e & _ & -> & _) | [(cfg & e & _ & _ & -> & _)
       | [(cfg & k & content & _ & _ & _ & _ & -> & _)
       | (cfg & e & _ & _ & _ & -> & _)]]].
  - split; [done|]. by intros e' [= <-].
  - split; [done|]. by intros e' [= <-].
  - unfold Fetcher.parse. destruct (csv_ReadAll content) as [e|[|r0 rs]].
    + split; [done|]. by intros e' [= <-].
    + by split.
    + by split.
  - split; [done|]. by intros e' [= <-].
Qed.

(** X2: a report that a fetch returns is the parsed payload of the first
    retrieval that succeeded, among the first 10: its header is the first
    record and its rows are the other records (or both are empty when there
    is no record at all), and the fetch made no call after that retrieval. *)
Theorem returned_report_is_first_payload (profile : string)
    (h : list string) (r : list (list string)) :
  fetch profile = Ok (h, r) →
  ∃ cfg k content records,
    LoadDefaultConfig profile = inr cfg
    ∧ k < 10
    ∧ (∀ n, n < k → ∃ e, GetCredentialReport cfg n = inl e)
    ∧ GetCredentialReport cfg k = inr content
    ∧ csv_ReadAll content = inr records
    ∧ (records = h :: r ∨ (records = [] ∧ h = [] ∧ r = []))
    ∧ calls profile = EvGenerate :: failed_attempts k ++ [EvGet].
Proof.
  intros Hok.
  destruct (fetch_cases profile)
    as [(e & _ & Hf & _) | [(cfg & e & _ & _ & Hf & _)
       | [(cfg & k & content & Hcfg & Hk & Hfail & Hget & Hf & Hc)
       | (cfg & e & _ & _ & _ & Hf & _)]]]; try congruence.
  rewrite Hf in Hok. unfold Fetcher.parse in Hok.
  destruct (csv_ReadAll content) as [e|records] eqn:Hcsv; [done|].
  exists cfg, k, content, records. split_and!; try done.
  destruct records as [|r0 rs]; injection Hok as <- <-; eauto.
Qed.

(** X3: a fetch sleeps at most 10 times, once after each retrieval that
    failed, the last one included: it sleeps 10 times exactly when it ends
    with the retrieval error, having retrieved 10 times, and otherwise it
    sleeps once less than it retrieves (or makes no retrieval at all). *)
Theorem sleeps_follow_failed_retrievals (profile : string) :
  count EvSleep (calls profile) ≤ 10
  ∧ (count EvSleep (calls profile) = 10
     ↔ ∃ e, fetch profile = Fail (ErrFetch profile e))
  ∧ ((∃ e, fetch profile = Fail (ErrFetch profile e)) →
     count EvGet (calls profile) = 10)
  ∧ ((∀ e, fetch profile ≠ Fail (ErrFetch profile e)) →
     count EvGet (calls profile) = 0 ∧ count EvSleep (calls profile) = 0
     ∨ count EvGet (calls profile) = S (count EvSleep (calls profile))).
Proof.
  assert (∀ k tl, count EvSleep (EvGenerate :: failed_attempts k ++ tl)
                  = k + count EvSleep tl
                  ∧ count EvGet (EvGenerate :: failed_attempts k ++ tl)
                    = k + count EvGet tl) as Hcount.
  { intros k tl. change (EvGenerate :: failed_attempts k ++ tl)
      with ([EvGenerate] ++ failed_attempts k ++ tl).
    rewrite !count_app.
    destruct (count_failed_attempts k) as (-> & _ & ->).
    change (count EvSleep [EvGenerate]) with 0.
    change (count EvGet [EvGenerate]) with 0. lia. }
  destruct (fetch_cases profile)
    as [(e & _ & Hf & Hc) | [(cfg & e & _ & _ & Hf & Hc)
       | [(cfg & k & content & _ & Hk & _ & _ & Hf & Hc)
       | (cfg & e & _ & _ & _ & Hf & Hc)]]]; rewrite Hc.
  - change (count EvSleep []) with 0. change (count EvGet []) with 0.
    split_and!; [lia| |by intros [e' He']; congruence|by left].
    split; [lia|]. intros [e' He']. congruence.
  - change (count EvSleep [EvGenerate]) with 0.
    change (count EvGet [EvGenerate]) with 0.
    split_and!; [lia| |by intros [e' He']; congruence|by left].
    split; [lia|]. intros [e' He']. congruence.
  - destruct (Hcount k [EvGet]) as [-> ->].
    change (count EvSleep [EvGet]) with 0. change (count EvGet [EvGet]) with 1.
    assert (∀ e, fetch profile ≠ Fail (ErrFetch profile e)) as Hno.
    { intros e. rewrite Hf. unfold Fetcher.parse.
      by destruct (csv_ReadAll content) as [?|[|??]]. }
    split_and!; [lia| |by intros [e He]; destruct (Hno e)|intros _; right; lia].
    split; [lia|]. intros [e He]. by destruct (Hno e).
  - rewrite <- (app_nil_r (failed_attempts 10)).
    destruct (Hcount 10 []) as [-> ->].
    change (count EvSleep []) with 0. change (count EvGet []) with 0.
    split_and!; [lia| |intros _; lia|].
    + split; [eauto|lia].
    + intros Hno. by destruct (Hno e).
Qed.

(** X4: a fetch makes no call at all exactly when its profile cannot be
    loaded, and then it returns the loading error; in every other case its
    first call is the generation request, which is its only one. *)
Theorem no_call_without_profile (profile : string) :
  (calls profile = [] ↔ ∃ e, LoadDefaultConfig profile = inl e)
  ∧ (∀ e, LoadDefaultConfig profile = inl e ↔
          fetch profile = Fail (ErrLoadingProfile profile e))
  ∧ (calls profile ≠ [] →
     ∃ rest, calls profile = EvGenerate :: rest ∧ EvGenerate ∉ rest).
Proof.
  assert (∀ k tl, EvGenerate ∉ tl → EvGenerate ∉ failed_attempts k ++ tl)
    as Hnot.
  { intros k tl Htl. induction k as [|k IH]; [done|].
    rewrite failed_attempts_S. simpl.
    rewrite !not_elem_of_cons. by split_and!. }
  destruct (fetch_cases profile)
    as [(e & Hl & Hf & Hc) | [(cfg & e & Hl & _ & Hf & Hc)
       | [(cfg & k & content & Hl & Hk & _ & _ & Hf & Hc)
       | (cfg & e & Hl & _ & _ & Hf & Hc)]]]; rewrite Hc, Hl.
  - split_and!; [split; eauto| |done].
    intros e'. rewrite Hf. split; congruence.
  - split_and!; [split; [done|by intros [??]]| |].
    + intros e'. rewrite Hf. split; congruence.
    + intros _. exists []. split; [done|apply not_elem_of_nil].
  - split_and!; [split; [done|by intros [??]]| |].
    + intros e'. rewrite Hf. unfold Fetcher.parse.
      split; [done|]. by destruct (csv_ReadAll content) as [?|[|??]].
    + intros _. eexists. split; [done|]. apply Hnot.
      rewrite not_elem_of_cons. split; [done|apply not_elem_of_nil].
  - split_and!; [split; [done|by intros [??]]| |].
    + intros e'. rewrite Hf. split; congruence.
    + intros _. eexists. split; [done|].
      rewrite <- (app_nil_r (failed_attempts 10)). apply Hnot, not_elem_of_nil.
Qed.

End Service.

(** The report returned by the service that is ready at the tenth
    retrieval comes from a retrieval among the first ten whose payload is one
    record, the header. *)
Lemma returned_report_at_tenth :
  ∃ k content,
    k < 10
    ∧ Examples.ready_at_tenth "prod" k = inr content
    ∧ Examples.read_all content = inr [["user"; "arn"]].
Proof.
  destruct (returned_report_is_first_payload Examples.load_ok
              Examples.generate_ok Examples.ready_at_tenth Examples.read_all
              "prod" ["user"; "arn"] [] eq_refl)
    as (cfg & k & content & records & Hcfg & Hk & _ & Hget & Hcsv & Hrec & _).
  injection Hcfg as <-. exists k, content.
  destruct Hrec as [->|(_ & Hnil & _)]; [by split_and!|discriminate Hnil].
Defined.

End FetcherMore.

Module DedupMore.
Import Dedup DedupFacts.

(** A list without repeats is its own working set. *)
Lemma dedup_NoDup_id (l : list string) : NoDup l → dedup l = l.
Proof.
  induction l as [|p l IH] using rev_ind; intros Hnd; [done|].
  apply NoDup_app in Hnd as (Hl & Hp & _).
  rewrite dedup_snoc, (IH Hl).
  rewrite decide_False; [done|].
  intros Hin. apply (Hp p Hin). by apply list_elem_of_singleton.
Qed.

(** X5: the de-duplication changes nothing exactly when no profile is
    requested twice, and running it a second time changes nothing. *)
Theorem dedup_only_drops_repeats (profiles : list string) :
  (dedup profiles = profiles ↔ NoDup profiles)
  ∧ dedup (dedup profiles) = dedup profiles.
Proof.
  split_and!.
  - split; [|apply dedup_NoDup_id]. intros <-. apply dedup_NoDup.
  - apply dedup_NoDup_id, dedup_NoDup.
Qed.

Lemma dedup_sublist (l : list string) : dedup l `sublist_of` l.
Proof.
  induction l as [|p l IH] using rev_ind; [done|].
  rewrite dedup_snoc. case_decide.
  - by apply sublist_inserts_r.
  - by apply sublist_app.
Qed.

(** The working set of two lists put end to end. *)
Lemma dedup_app (l1 l2 : list string) :
  dedup (l1 ++ l2) = dedup l1 ++ filter (λ x, x ∉ l1) (dedup l2).
Proof.
  induction l2 as [|p l2 IH] using rev_ind.
  - by rewrite !app_nil_r.
  - rewrite (assoc_L (++)), !dedup_snoc, IH.
    destruct (decide (p ∈ dedup l2)) as [Hin2|Hin2].
    + rewrite decide_True; [done|].
      destruct (decide (p ∈ l1)) as [Hin1|Hin1].
      * apply elem_of_app. left. by apply dedup_elem.
      * apply elem_of_app. right. by apply list_elem_of_filter.
    + rewrite filter_app.
      destruct (decide (p ∈ l1)) as [Hin1|Hin1].
      * rewrite decide_True by (apply elem_of_app; left; by apply dedup_elem).
        rewrite filter_cons_False by (intros Hn; by apply Hn).
        by rewrite filter_nil, app_nil_r.
      * rewrite decide_False.
        -- rewrite filter_cons_True by done.
           by rewrite filter_nil, (assoc_L (++)).
        -- rewrite elem_of_app, dedup_elem, list_elem_of_filter. tauto.
Qed.

(** A name that was already requested adds nothing, wherever it is
    repeated. *)
Lemma dedup_repeat (l1 l2 : list string) (p : string) :
  p ∈ l1 → dedup (l1 ++ p :: l2) = dedup (l1 ++ l2).
Proof.
  intros Hp. rewrite !dedup_app. f_equal.
  change (p :: l2) with ([p] ++ l2). rewrite dedup_app.
  rewrite filter_app.
  change (dedup [p]) with [p].
  rewrite filter_cons_False by (intros Hn; by apply Hn).
  rewrite filter_nil, app_nil_l, list_filter_filter.
  apply list_filter_iff. intros x. split; [by intros [? _]|].
  intros Hx. split; [done|]. intros ->%list_elem_of_singleton. by apply Hx.
Qed.

(** X6: the working set is the input with some occurrences left out, in
    the input's order; and the working set of two lists put end to end is
    the working set of the first followed by the working set of the second
    without the names the first list has. *)
Theorem dedup_sublist_and_append (l1 l2 : list string) :
  dedup l1 `sublist_of` l1
  ∧ length (dedup l1) ≤ length l1
  ∧ dedup (l1 ++ l2) = dedup l1 ++ filter (λ x, x ∉ l1) (dedup l2).
Proof.
  split_and!.
  - apply dedup_sublist.
  - apply sublist_length, dedup_sublist.
  - apply dedup_app.
Qed.

End DedupMore.

Module SuffixFacts.

Lemma substring_all (s : string) : String.substring 0 (String.length s) s = s.
Proof. induction s as [|c s IH]; simpl; [done|]. by rewrite IH. Qed.

Lemma substring_after (pre suffix : string) :
  String.substring (String.length pre) (String.length suffix) (pre +:+ suffix)
  = suffix.
Proof. induction pre as [|c pre IH]; simpl; [apply substring_all|done]. Qed.

Lemma length_append (pre suffix : string) :
  String.length (pre +:+ suffix) = String.length pre + String.length suffix.
Proof. induction pre as [|c pre IH]; simpl; [done|]. by rewrite IH. Qed.

(** A string is its first [n] characters followed by the others. *)
Lemma split_at (s : string) : ∀ n,
  n ≤ String.length s →
  s = String.substring 0 n s
      +:+ String.substring n (String.length s - n) s.
Proof.
  induction s as [|c s IH]; intros n Hn; simpl in *.
  - by destruct n.
  - destruct n as [|n]; simpl.
    + by rewrite substring_all.
    + change (String c s
              = String c (String.substring 0 n s
                          +:+ String.substring n (String.length s - n) s)).
      f_equal. apply IH. lia.
Qed.

(** [strings.HasSuffix] holds of the strings that end with the suffix. *)
Lemma HasSuffix_spec (s suffix : string) :
  Merge.HasSuffix s suffix = true ↔ ∃ pre, s = pre +:+ suffix.
Proof.
  unfold Merge.HasSuffix. rewrite andb_true_iff, Nat.leb_le, String.eqb_eq.
  split.
  - intros [Hlen Hsub].
    exists (String.substring 0 (String.length s - String.length suffix) s).
    pose proof (split_at s (String.length s - String.length suffix)
                  ltac:(lia)) as Hsplit.
    replace (String.length s - (String.length s - String.length suffix))
      with (String.length suffix) in Hsplit by lia.
    by rewrite Hsub in Hsplit.
  - intros [pre ->]. rewrite length_append. split; [lia|].
    replace (String.length pre + String.length suffix - String.length suffix)
      with (String.length pre) by lia.
    apply substring_after.
Qed.

End SuffixFacts.

Module MergeMore.
Import Merge ListFacts MergeFacts SuffixFacts.

(** X7: with exclude-root, the body of the inner loop leaves the table as it
    is, dropping the row, exactly when the row has a cell in the [arn]
    column and that cell is some text followed by [:root] (the text may be
    empty: the cell [:root] itself is dropped). *)
Theorem root_rows_end_with_the_suffix (k : nat) (profile : string)
    (allResults : list (list string)) (row : list string) :
  append_row true (Z.of_nat k) profile allResults row = Ok allResults
  ↔ ∃ pre, row !! k = Some (pre +:+ ":root").
Proof.
  unfold append_row. rewrite index_nat.
  destruct (row !! k) as [cell|] eqn:Hcell.
  - destruct (HasSuffix cell ":root") eqn:Hroot.
    + apply HasSuffix_spec in Hroot as [pre ->]. split; eauto.
    + split.
      * intros [= Heq]. apply (f_equal length) in Heq.
        rewrite length_app in Heq. simpl in Heq. lia.
      * intros [pre [= ->]].
        assert (HasSuffix (pre +:+ ":root") ":root" = true) as Hyes
          by (apply HasSuffix_spec; eauto).
        congruence.
  - split; [done|]. by intros [pre ?].
Qed.

Lemma forallb_false_elem {A} (f : A → bool) (l : list A) :
  forallb f l = false ↔ ∃ x, x ∈ l ∧ f x = false.
Proof.
  induction l as [|y l IH]; simpl.
  - split; [done|]. by intros (x & ?%elem_of_nil & _).
  - rewrite andb_false_iff, IH. split.
    + intros [Hy|(x & Hx & Hfx)]; [exists y|exists x]; split; try done;
        [left|by right].
    + intros (x & [->|Hx]%elem_of_cons & Hfx); [by left|right; eauto].
Qed.

Lemma indexable_false k results :
  indexable true k results = false
  ↔ ∃ res row, res ∈ results ∧ row ∈ rows res ∧ length row ≤ k.
Proof.
  unfold indexable. simpl. rewrite forallb_false_elem. split.
  - intros (res & Hres & (row & Hrow & Hlen)%forallb_false_elem).
    apply Nat.ltb_ge in Hlen. eauto.
  - intros (res & row & Hres & Hrow & Hlen). exists res. split; [done|].
    apply forallb_false_elem. exists row. split; [done|].
    by apply Nat.ltb_ge.
Qed.

(** X8: without exclude-root the merge never panics, whatever the lengths
    of the rows. With exclude-root it panics, with an index out of range,
    exactly when the first header has an [arn] column and some row of some
    result is too short to have a cell in that column. *)
Theorem short_rows_panic_under_exclusion (first : profileResult)
    (rest : list profileResult) :
  (∀ msg, merge false (first :: rest) ≠ Panic msg)
  ∧ (merge true (first :: rest) = Panic "index out of range"
     ↔ ∃ k res row, first_index "arn" (header first) = Some k
                    ∧ res ∈ first :: rest ∧ row ∈ rows res ∧ length row ≤ k)
  ∧ (∀ msg, merge true (first :: rest) = Panic msg → msg = "index out of range").
Proof.
  rewrite !merge_unfold.
  destruct (first_index "arn" (header first)) as [k|].
  - split_and!.
    + done.
    + destruct (indexable true k (first :: rest)) eqn:Hix.
      * split; [done|]. intros (k' & res & row & [= <-] & Hshort).
        assert (indexable true k (first :: rest) = false) as Hno
          by (apply indexable_false; eauto).
        congruence.
      * split; [|done]. intros _.
        apply indexable_false in Hix as (res & row & Hshort). eauto.
    + intros msg. destruct (indexable true k (first :: rest)); [done|].
      by intros [= <-].
  - split_and!; [done| |done]. split; [done|]. by intros (k & ? & ? & ? & _).
Qed.

Lemma data_rows_app excl k l1 l2 :
  data_rows excl k (l1 ++ l2) = data_rows excl k l1 ++ data_rows excl k l2.
Proof. unfold data_rows. by rewrite fmap_app, concat_app. Qed.

Lemma data_rows_unfiltered k results :
  data_rows false k results
  = concat ((λ res, (λ row, profile res :: row) <$> rows res) <$> results).
Proof.
  unfold data_rows. f_equal. apply list_fmap_ext. intros _ res _.
  unfold rows_of. f_equal.
  induction (rows res) as [|row rws IH]; [done|].
  rewrite filter_cons_True by done. by rewrite IH.
Qed.

Lemma data_rows_sublist k results :
  data_rows true k results `sublist_of` data_rows false k results.
Proof.
  induction results as [|res results IH]; [done|].
  rewrite !data_rows_cons. apply sublist_app; [|done].
  unfold rows_of. apply fmap_sublist.
  induction (rows res) as [|row rws IHr]; [done|].
  rewrite (filter_cons_True (λ row, kept false k row = true)) by done.
  rewrite filter_cons. case_decide; [by apply sublist_skip|by apply sublist_cons].
Qed.

(** X9: when the merge with exclude-root produces a table, the merge
    without it produces one too: the header row followed by every row of
    every result behind its profile, in order. The filtered table is that
    table with some rows left out: the exclusion removes rows and does
    nothing else. *)
Theorem exclusion_only_removes_rows (first : profileResult)
    (rest : list profileResult) (table : list (list string)) :
  merge true (first :: rest) = Ok table →
  ∃ full,
    merge false (first :: rest) = Ok full
    ∧ full = ("profile" :: header first)
             :: concat ((λ res, (λ row, profile res :: row) <$> rows res)
                        <$> first :: rest)
    ∧ table `sublist_of` full
    ∧ head table = head full.
Proof.
  rewrite !merge_unfold.
  destruct (first_index "arn" (header first)) as [k|]; [|done].
  destruct (indexable true k (first :: rest)); [|done].
  intros [= <-]. eexists. split_and!.
  - reflexivity.
  - by rewrite data_rows_unfiltered.
  - apply sublist_skip, data_rows_sublist.
  - done.
Qed.

(** X10: the table of a longer list of results extends the table of a
    shorter one: when the merge of [first :: rest ++ more] produces a table,
    the merge of [first :: rest] produces a table too, and the first is the
    second followed by rows that all come from [more]. *)
Theorem longer_request_extends_table (ExcludeRoot : bool)
    (first : profileResult) (rest more : list profileResult)
    (table : list (list string)) :
  merge ExcludeRoot (first :: rest ++ more) = Ok table →
  ∃ shorter added,
    merge ExcludeRoot (first :: rest) = Ok shorter
    ∧ table = shorter ++ added
    ∧ ∀ line, line ∈ added →
        ∃ res row, res ∈ more ∧ row ∈ rows res ∧ line = profile res :: row.
Proof.
  rewrite !merge_unfold.
  destruct (first_index "arn" (header first)) as [k|]; [|done].
  rewrite (app_comm_cons rest more first).
  destruct (indexable ExcludeRoot k ((first :: rest) ++ more)) eqn:Hix; [|done].
  intros [= <-].
  assert (indexable ExcludeRoot k (first :: rest) = true) as ->.
  { unfold indexable in *. destruct ExcludeRoot; [|done].
    cbn [negb orb] in *. rewrite forallb_app in Hix.
    by apply andb_true_iff in Hix as [Hix _]. }
  exists (("profile" :: header first) :: data_rows ExcludeRoot k (first :: rest)),
         (data_rows ExcludeRoot k more).
  split_and!; [done|by rewrite app_comm_cons, data_rows_app|].
  intros line (res & row & Hres & Hrow & _ & ->)%elem_of_data_rows. eauto.
Qed.

(** The table of the two accounts without the filter has the root row. *)
Lemma exclusion_removes_the_root_row :
  ∃ full,
    merge false [Examples.acct1; Examples.acct2] = Ok full
    ∧ [ ["profile"; "user"; "arn"; "active"];
        ["acct1"; "alice"; "arn:aws:iam::1:user/alice"; "true"] ]
      `sublist_of` full.
Proof.
  destruct (exclusion_only_removes_rows Examples.acct1 [Examples.acct2]
              [ ["profile"; "user"; "arn"; "active"];
                ["acct1"; "alice"; "arn:aws:iam::1:user/alice"; "true"] ]
              eq_refl)
    as (full & Hfull & _ & Hsub & _).
  exists full. by split.
Defined.

(** The table of one account is the beginning of the table of two. *)
Lemma two_accounts_extend_one :
  ∃ shorter added,
    merge false [Examples.acct1] = Ok shorter
    ∧ [ ["profile"; "user"; "arn"; "active"];
        ["acct1"; "alice"; "arn:aws:iam::1:user/alice"; "true"];
        ["acct2"; "root"; "arn:aws:iam::2:root"; "true"] ]
      = shorter ++ added.
Proof.
  destruct (longer_request_extends_table false Examples.acct1 []
              [Examples.acct2]
              [ ["profile"; "user"; "arn"; "active"];
                ["acct1"; "alice"; "arn:aws:iam::1:user/alice"; "true"];
                ["acct2"; "root"; "arn:aws:iam::2:root"; "true"] ]
              eq_refl)
    as (shorter & added & Hshort & Heq & _).
  exists shorter, added. by split.
Defined.

End MergeMore.

Module CoordinatorMore.
Import Coordinator CoordinatorFacts Progress.

Lemma rank_cons q tasks :
  sum_list (rank <$> q :: tasks) = rank q + sum_list (rank <$> tasks).
Proof. done. Qed.

Lemma rank_snoc tasks q :
  sum_list (rank <$> tasks ++ [q]) = sum_list (rank <$> tasks) + rank q.
Proof.
  induction tasks as [|q' tasks IH]; [cbn; lia|].
  rewrite <- app_comm_cons, !rank_cons, IH. lia.
Qed.

(** Moving one task changes the count of steps by that task alone. *)
Lemma rank_insert tasks i old new :
  tasks !! i = Some old →
  sum_list (rank <$> <[i := new]> tasks) + rank old
  = sum_list (rank <$> tasks) + rank new.
Proof.
  revert i. induction tasks as [|q tasks IH]; intros i Hi; [done|].
  destruct i as [|i]; simpl in Hi.
  - injection Hi as ->.
    change (<[0 := new]> (old :: tasks)) with (new :: tasks).
    rewrite !rank_cons. lia.
  - specialize (IH i Hi).
    change (<[S i := new]> (q :: tasks)) with (q :: <[i := new]> tasks).
    rewrite !rank_cons. lia.
Qed.

Lemma rank_bound tasks : sum_list (rank <$> tasks) ≤ 3 * length tasks.
Proof.
  induction tasks as [|q tasks IH]; [done|].
  rewrite rank_cons, length_cons. destruct q; simpl; lia.
Qed.

Lemma rank_full tasks :
  sum_list (rank <$> tasks) = 3 * length tasks ↔ Forall (λ q, q = PcDone) tasks.
Proof.
  induction tasks as [|q tasks IH].
  - split; [constructor|done].
  - pose proof (rank_bound tasks) as Hb.
    rewrite rank_cons, length_cons, Forall_cons, <- IH.
    destruct q; simpl; split; try lia; try (by intros [? _]).
    intros ?. split; [done|lia].
Qed.

Lemma done_hold_nothing (tasks : list pc) :
  Forall (λ q, q = PcDone) tasks →
  length (filter (λ p, holds_gate p = true) tasks) = 0.
Proof.
  induction 1 as [|q tasks -> _ IH]; [done|]. by rewrite filter_cons_False.
Qed.

(** Either every task is done or some task is not. *)
Lemma done_or_not (tasks : list pc) :
  Forall (λ q, q = PcDone) tasks
  ∨ ∃ i q, tasks !! i = Some q ∧ q ≠ PcDone.
Proof.
  induction tasks as [|q tasks [IH|(i & q' & Hi & Hq)]].
  - left. constructor.
  - destruct q; [right; by exists 0, PcSend | right; by exists 0, PcFetch
                | right; by eexists 0, (PcRelease _) | left; by constructor].
  - right. by exists (S i), q'.
Qed.

Section Run.
Variable fetch : string → outcome error report.
Variable profiles : list string.

Local Abbreviation step := (step fetch profiles).
Local Abbreviation reachable := (reachable fetch profiles).
Local Abbreviation inv_errors := (inv_errors fetch profiles).

Lemma inv_errors_init : inv_errors (init profiles).
Proof. split; simpl; intros; by rewrite lookup_nil in *. Qed.

Lemma inv_errors_step s s' : inv_errors s → step s s' → inv_errors s'.
Proof.
  intros [Hret Hkept] Hstep.
  destruct Hstep as [s Hlt | s i Hi Hfree | s i p h r Hi Hp Hf Hir
                    | s i p e Hi Hp Hf | s i ret Hi Hpos]; split; simpl.
  - intros i p ret Hp Hi. apply (Hret i p ret Hp).
    destruct (decide (i < length (pcs s))) as [Hil|Hil].
    + by rewrite lookup_app_l in Hi.
    + rewrite lookup_app_r in Hi by lia.
      by destruct (i - length (pcs s)) as [|[|n]].
  - intros i p e Hp Hi. apply (Hkept i p e Hp).
    destruct (decide (i < length (pcs s))) as [Hil|Hil].
    + by rewrite lookup_app_l in Hi.
    + rewrite lookup_app_r in Hi by lia.
      by destruct (i - length (pcs s)) as [|[|n]].
  - intros j p ret Hp Hj. apply (Hret j p ret Hp).
    destruct (decide (i = j)) as [<-|Hne].
    + apply lookup_lt_Some in Hi. by rewrite list_lookup_insert_eq in Hj.
    + by rewrite list_lookup_insert_ne in Hj.
  - intros j p e Hp Hj. apply (Hkept j p e Hp).
    destruct (decide (i = j)) as [<-|Hne].
    + apply lookup_lt_Some in Hi. by rewrite list_lookup_insert_eq in Hj.
    + by rewrite list_lookup_insert_ne in Hj.
  - intros j p' ret Hp' Hj.
    destruct (decide (i = j)) as [<-|Hne].
    + apply lookup_lt_Some in Hi. rewrite list_lookup_insert_eq in Hj by done.
      injection Hj as <-. rewrite Hp in Hp'. injection Hp' as <-.
      by rewrite Hf.
    + rewrite list_lookup_insert_ne in Hj by done. by apply (Hret j).
  - intros j p' e Hp' Hj. apply (Hkept j p' e Hp').
    destruct (decide (i = j)) as [<-|Hne].
    + apply lookup_lt_Some in Hi. by rewrite list_lookup_insert_eq in Hj.
    + by rewrite list_lookup_insert_ne in Hj.
  - intros j p' ret Hp' Hj.
    destruct (decide (i = j)) as [<-|Hne].
    + apply lookup_lt_Some in Hi. rewrite list_lookup_insert_eq in Hj by done.
      injection Hj as <-. rewrite Hp in Hp'. injection Hp' as <-.
      by rewrite Hf.
    + rewrite list_lookup_insert_ne in Hj by done. by apply (Hret j).
  - intros j p' e' Hp' Hj. apply (Hkept j p' e' Hp').
    destruct (decide (i = j)) as [<-|Hne].
    + apply lookup_lt_Some in Hi. by rewrite list_lookup_insert_eq in Hj.
    + by rewrite list_lookup_insert_ne in Hj.
  - intros j p ret' Hp Hj. apply (Hret j p ret' Hp).
    destruct (decide (i = j)) as [<-|Hne].
    + apply lookup_lt_Some in Hi. by rewrite list_lookup_insert_eq in Hj.
    + by rewrite list_lookup_insert_ne in Hj.
  - intros j p e Hp Hj Hf.
    destruct (egerr s) as [e0|] eqn:He0; [by eexists|].
    destruct (decide (i = j)) as [<-|Hne].
    + rewrite (Hret i p ret Hp Hi), Hf. by eexists.
    + rewrite list_lookup_insert_ne in Hj by done.
      destruct (Hkept j p e Hp Hj Hf) as [e1 He1]. congruence.
Qed.

Lemma reachable_inv_errors s : reachable s → inv_errors s.
Proof.
  unfold Coordinator.reachable. intros Hrun.
  apply rtc_ind_r with (x := init profiles) (P := inv_errors) in Hrun;
    [done|apply inv_errors_init|].
  intros s1 s2 _ Hstep Hinv. by eapply inv_errors_step.
Qed.

(** When [eg.Wait()] returns after a fetch failed, the errgroup holds the
    error of a fetch that failed. *)
Lemma settled_error_kept s :
  reachable s → settled profiles s →
  (∃ p e, p ∈ profiles ∧ fetch p = Fail e) →
  ∃ p e, p ∈ profiles ∧ fetch p = Fail e ∧ egerr s = Some e.
Proof.
  intros Hrun [Hall Hdone] (p & e & Hp & Hf).
  pose proof (reachable_inv fetch profiles s Hrun) as Hinv.
  pose proof (reachable_inv_errors s Hrun) as [_ Hkept].
  apply list_elem_of_lookup in Hp as [i Hi].
  assert (pcs s !! i = Some PcDone) as Hpc.
  { assert (i < length (pcs s)) as Hil.
    { apply lookup_lt_Some in Hi. rewrite (inv_launched _ _ _ Hinv). lia. }
    destruct (lookup_lt_is_Some_2 _ _ Hil) as [q Hq].
    rewrite Forall_forall in Hdone.
    rewrite (Hdone q) in Hq; [done|]. apply list_elem_of_lookup; eauto. }
  destruct (Hkept i p e Hi Hpc Hf) as [e' He'].
  destruct (inv_egerr _ _ _ Hinv e' He') as (p' & Hp' & Hf').
  eauto 10.
Qed.

(** A task that holds the gate can take its next step. *)
Lemma holder_steps s j q :
  reachable s →
  (∀ p msg, p ∈ profiles → fetch p ≠ Panic msg) →
  pcs s !! j = Some q → holds_gate q = true →
  ∃ s', step s s'.
Proof.
  intros Hrun Hreturns Hj Hq.
  pose proof (reachable_inv fetch profiles s Hrun)
    as [Hlen Hbound Hhold Hcap Hrlen _ _ _].
  assert (j < length (pcs s)) as Hjl by by eapply lookup_lt_Some.
  destruct q as [| |ret|]; try done.
  - destruct (lookup_lt_is_Some_2 profiles j) as [p Hp]; [lia|].
    assert (p ∈ profiles) as Hin by (apply list_elem_of_lookup; eauto).
    destruct (fetch p) as [[h r]|e|msg] eqn:Hf.
    + eexists. apply (step_fetch_ok fetch profiles s j p h r); [done..|lia].
    + eexists. by apply (step_fetch_err fetch profiles s j p e).
    + by destruct (Hreturns p msg Hin).
  - eexists. apply (step_recv fetch profiles s j ret Hj).
    rewrite <- Hhold. unfold holders.
    assert (PcRelease ret ∈ filter (λ p, holds_gate p = true) (pcs s)) as Hin.
    { apply list_elem_of_filter. split; [done|].
      apply list_elem_of_lookup; eauto. }
    destruct (filter _ (pcs s)); [by apply elem_of_nil in Hin|simpl; lia].
Qed.

(** X11: the fan-out cannot deadlock. In every state of a run in which no
    fetch panics, either [eg.Wait()] returns or some step can be taken: a
    launch, an admission, the return of a fetch or a release. *)
Theorem no_deadlock (s : state) :
  reachable s →
  (∀ p msg, p ∈ profiles → fetch p ≠ Panic msg) →
  settled profiles s ∨ ∃ s', step s s'.
Proof.
  intros Hrun Hreturns.
  pose proof (reachable_inv fetch profiles s Hrun)
    as [Hlen Hbound Hhold Hcap Hrlen _ _ _].
  destruct (decide (launched s < length profiles)) as [Hlt|Hge].
  { right. eexists. by apply (step_go fetch profiles s). }
  destruct (done_or_not (pcs s)) as [Hdone|(i & q & Hi & Hq)].
  { left. split; [lia|done]. }
  right. destruct (holds_gate q) eqn:Hholds.
  { by eapply holder_steps. }
  destruct q as [| |ret|]; try done.
  destruct (decide (sem s < sem_cap)) as [Hfree|Hfull].
  { eexists. by apply (step_send fetch profiles s i). }
  assert (0 < holders s) as Hpos by (unfold sem_cap in *; lia).
  unfold holders in Hpos.
  destruct (filter (λ p, holds_gate p = true) (pcs s)) as [|q' held] eqn:Hheld;
    [simpl in Hpos; lia|].
  assert (q' ∈ filter (λ p, holds_gate p = true) (pcs s)) as Hin
    by (rewrite Hheld; left).
  apply list_elem_of_filter in Hin as [Hq' [j Hj]%list_elem_of_lookup].
  by eapply holder_steps.
Qed.

(** Each step is one more step taken. *)
Lemma step_counts s s' :
  step s s' → steps_taken s' = S (steps_taken s).
Proof.
  unfold steps_taken.
  intros [s0 Hlt | s0 i Hi Hfree | s0 i p h r Hi Hp Hf Hir
         | s0 i p e Hi Hp Hf | s0 i ret Hi Hpos]; simpl.
  - rewrite rank_snoc. simpl. lia.
  - pose proof (rank_insert (pcs s0) i PcSend PcFetch Hi). simpl in *. lia.
  - pose proof (rank_insert (pcs s0) i PcFetch (PcRelease None) Hi).
    simpl in *. lia.
  - pose proof (rank_insert (pcs s0) i PcFetch (PcRelease (Some e)) Hi).
    simpl in *. lia.
  - pose proof (rank_insert (pcs s0) i (PcRelease ret) PcDone Hi).
    simpl in *. lia.
Qed.

(** X12: every run is short. A run of [k] steps has launched and moved its
    tasks [k] times in all, [k] is at most four times the number of
    profiles (launch, admission, return and release of each task), and
    [eg.Wait()] returns exactly in the states reached by that many steps,
    with every slot of the gate released. *)
Theorem runs_take_four_steps_per_profile (k : nat) (s : state) :
  nsteps step k (init profiles) s →
  k = steps_taken s
  ∧ k ≤ 4 * length profiles
  ∧ (settled profiles s ↔ k = 4 * length profiles)
  ∧ (settled profiles s → sem s = 0).
Proof.
  intros Hrun.
  assert (k = steps_taken s) as Hk.
  { revert s Hrun. induction k as [|k IH]; intros s Hrun.
    - by inversion Hrun.
    - apply nsteps_inv_r in Hrun as (s0 & Hrun & Hstep).
      rewrite (step_counts s0 s Hstep). f_equal. by apply IH. }
  pose proof (reachable_inv fetch profiles s (rtc_nsteps_2 _ _ _ Hrun))
    as [Hlen Hbound Hhold Hcap Hrlen _ _ _].
  pose proof (rank_bound (pcs s)) as Hb.
  unfold steps_taken in Hk. split_and!.
  - done.
  - lia.
  - split.
    + intros [Hall Hdone%rank_full]. lia.
    + intros Hfull. assert (launched s = length profiles) as Hall by lia.
      split; [done|]. apply rank_full. lia.
  - intros [_ Hdone]. rewrite <- Hhold. by apply done_hold_nothing.
Qed.

(** X13: when [eg.Wait()] returns in a run in which some fetch failed,
    [main] stops with the fatal message of line 120 about the error of a
    fetch that failed; it does not merge the reports that did arrive,
    whether root exclusion was requested or not. *)
Theorem failed_fetch_is_fatal (ExcludeRoot : bool) (s : state) :
  reachable s → settled profiles s →
  (∃ p e, p ∈ profiles ∧ fetch p = Fail e) →
  ∃ p e, p ∈ profiles ∧ fetch p = Fail e
         ∧ main_after_wait ExcludeRoot s = Fail (ErrorFetchingReports e).
Proof.
  intros Hrun Hsettled Hfailed.
  destruct (settled_error_kept s Hrun Hsettled Hfailed)
    as (p & e & Hp & Hf & Herr).
  exists p, e. split_and!; [done|done|].
  unfold main_after_wait. by rewrite Herr.
Qed.

(** X14: with at most 4 profiles no task ever waits at the gate: in every
    state of the run a task that stands before its send can be admitted at
    once. *)
Theorem four_profiles_never_wait (s : state) (i : nat) :
  length profiles ≤ 4 →
  reachable s →
  pcs s !! i = Some PcSend →
  sem s < 4
  ∧ ∃ s', step s s' ∧ pcs s' !! i = Some PcFetch.
Proof.
  intros Hfew Hrun Hi.
  pose proof (reachable_inv fetch profiles s Hrun)
    as [Hlen Hbound Hhold Hcap Hrlen _ _ _].
  assert (holders s < length (pcs s)) as Hlt.
  { unfold holders. apply (length_filter_lt _ _ PcSend); [|done].
    apply list_elem_of_lookup; eauto. }
  assert (sem s < 4) as Hfree by lia.
  split; [done|]. eexists. split.
  - by apply (step_send fetch profiles s i).
  - simpl. apply list_lookup_insert_eq. by eapply lookup_lt_Some.
Qed.


End Run.

(** Four tasks hold the gate and the fifth waits: a step can be taken. *)
Lemma no_deadlock_gate_full :
  settled Examples.five Examples.gate_full
  ∨ ∃ s', step Examples.two_accounts Examples.five Examples.gate_full s'.
Proof.
  apply no_deadlock.
  - apply CoordinatorCorrect.gate_full_reachable.
  - intros p msg _. unfold Examples.two_accounts.
    by destruct (String.eqb p "acct1").
Defined.

(** The run of one profile: launch, admission, return, release. *)
Lemma one_profile_run :
  nsteps (step Examples.two_accounts ["acct1"]) 4 (init ["acct1"])
         MoreExamples.settled1.
Proof.
  eapply nsteps_l; [by apply step_go; simpl; lia|]. simpl.
  eapply nsteps_l;
    [by apply (step_send _ _ _ 0); [|unfold sem_cap; simpl; lia]|]. simpl.
  eapply nsteps_l;
    [by apply (step_fetch_ok _ _ _ 0 "acct1" ["user"; "arn"; "active"]
                 [["alice"; "arn:aws:iam::1:user/alice"; "true"]]);
       [| | |simpl; lia]|]. simpl.
  eapply nsteps_l; [by apply (step_recv _ _ _ 0 None); [|simpl; lia]|]. simpl.
  apply nsteps_O.
Defined.

Lemma one_profile_takes_four_steps :
  4 = steps_taken MoreExamples.settled1
  ∧ (settled ["acct1"] MoreExamples.settled1 ↔ 4 = 4 * length ["acct1"])
  ∧ (settled ["acct1"] MoreExamples.settled1 → sem MoreExamples.settled1 = 0).
Proof.
  destruct (runs_take_four_steps_per_profile Examples.two_accounts ["acct1"]
              4 MoreExamples.settled1 one_profile_run)
    as (Hk & _ & Hsettled & Hsem).
  by split_and!.
Defined.

(** A run of two tasks in which the request of the second is denied. *)
Lemma second_denied_run :
  reachable MoreExamples.second_denied ["acct1"; "acct2"]
    (MoreExamples.failed2
       (ProfileResult 0 "acct1" ["user"; "arn"]
                      [["alice"; "arn:aws:iam::1:user/alice"]])
       zero_profileResult
       (ErrGenerate "acct2" (SdkError "AccessDenied"))).
Proof.
  unfold reachable.
  eapply rtc_l; [by apply step_go; simpl; lia|]. simpl.
  eapply rtc_l; [by apply step_go; simpl; lia|]. simpl.
  eapply rtc_l; [by apply (step_send _ _ _ 0); [|unfold sem_cap; simpl; lia]|]. simpl.
  eapply rtc_l; [by apply (step_send _ _ _ 1); [|unfold sem_cap; simpl; lia]|]. simpl.
  eapply rtc_l;
    [by apply (step_fetch_ok _ _ _ 0 "acct1" ["user"; "arn"]
                 [["alice"; "arn:aws:iam::1:user/alice"]]);
       [| | |simpl; lia]|]. simpl.
  eapply rtc_l; [by apply (step_recv _ _ _ 0 None); [|simpl; lia]|]. simpl.
  eapply rtc_l;
    [by apply (step_fetch_err _ _ _ 1 "acct2"
                 (ErrGenerate "acct2" (SdkError "AccessDenied")))|]. simpl.
  eapply rtc_l;
    [by apply (step_recv _ _ _ 1
                 (Some (ErrGenerate "acct2" (SdkError "AccessDenied"))));
       [|simpl; lia]|]. simpl.
  apply rtc_refl.
Defined.

Lemma second_denied_is_fatal :
  ∃ p e, p ∈ ["acct1"; "acct2"]
         ∧ MoreExamples.second_denied p = Fail e
         ∧ main_after_wait true
             (MoreExamples.failed2
                (ProfileResult 0 "acct1" ["user"; "arn"]
                               [["alice"; "arn:aws:iam::1:user/alice"]])
                zero_profileResult
                (ErrGenerate "acct2" (SdkError "AccessDenied")))
           = Fail (ErrorFetchingReports e).
Proof.
  apply (failed_fetch_is_fatal MoreExamples.second_denied ["acct1"; "acct2"]).
  - apply second_denied_run.
  - split; [reflexivity|]. repeat constructor.
  - exists "acct2", (ErrGenerate "acct2" (SdkError "AccessDenied")).
    split; [|reflexivity]. right. left.
Defined.

Lemma launched1_reachable fetch :
  reachable fetch ["acct1"] MoreExamples.launched1.
Proof.
  unfold reachable.
  eapply rtc_l; [by apply step_go; simpl; lia|]. simpl. apply rtc_refl.
Defined.

(** A single task is admitted as soon as it is launched. *)
Lemma single_profile_never_waits :
  sem MoreExamples.launched1 < 4
  ∧ ∃ s', step Examples.two_accounts ["acct1"] MoreExamples.launched1 s'
          ∧ pcs s' !! 0 = Some PcFetch.
Proof.
  apply (four_profiles_never_wait Examples.two_accounts ["acct1"]).
  - simpl. lia.
  - apply launched1_reachable.
  - reflexivity.
Defined.


End CoordinatorMore.

Module SinkMore.
Import Coordinator CoordinatorFacts CoordinatorMore Merge MergeFacts Sink.

Section Run.
Variable os_Create : string → option sdk_error.
Variable writer_WriteAll : list (list string) → option sdk_error.
Variable fetch : string → outcome error report.
Variable profiles : list string.

Local Abbreviation reachable := (reachable fetch profiles).
Local Abbreviation finish := (finish os_Create writer_WriteAll).

(** X16: the output file is touched only by a run that has a table to
    write. When [eg.Wait()] returns after a fetch failed, the process ends
    with the fatal message about a fetch that failed and has made no call on
    the file: there is no partial output. In every case a table handed to
    the CSV writer is the table of the merge in a run in which no fetch
    failed, and the file is closed by the program exactly when the process
    ends without error ([log.Fatalf] skips the deferred close). *)
Theorem no_output_unless_all_fetched (Output : string) (ExcludeRoot : bool)
    (s : state) :
  reachable s → settled profiles s →
  ((∃ p e, p ∈ profiles ∧ fetch p = Fail e) →
   ∃ p e, p ∈ profiles ∧ fetch p = Fail e
          ∧ finish Output ExcludeRoot s
            = (ExitFatal (ErrorFetchingReports e), []))
  ∧ (∀ table, IoWriteAll table ∈ (finish Output ExcludeRoot s).2 →
       main_after_wait ExcludeRoot s = Ok table
       ∧ (∀ p e, p ∈ profiles → fetch p ≠ Fail e)
       ∧ (finish Output ExcludeRoot s).2 !! 0 = Some (IoCreate Output))
  ∧ (IoClose ∈ (finish Output ExcludeRoot s).2
     ↔ (finish Output ExcludeRoot s).1 = ExitOk).
Proof.
  intros Hrun Hsettled. split_and!.
  - intros Hfailed.
    destruct (settled_error_kept fetch profiles s Hrun Hsettled Hfailed)
      as (p & e & Hp & Hf & Herr).
    exists p, e. split_and!; [done|done|].
    unfold Sink.finish, main_after_wait. by rewrite Herr.
  - intros table Hwritten.
    assert (main_after_wait ExcludeRoot s = Ok table
            ∧ (finish Output ExcludeRoot s).2 !! 0 = Some (IoCreate Output))
      as [Hmain Hcreate].
    { unfold Sink.finish in *.
      destruct (main_after_wait ExcludeRoot s) as [t|f|msg];
        [|by apply elem_of_nil in Hwritten..].
      unfold write_report in *.
      destruct (os_Create Output) as [e|].
      { apply list_elem_of_singleton in Hwritten. discriminate. }
      destruct (writer_WriteAll t) as [e|]; simpl in *.
      - apply elem_of_cons in Hwritten as [?|Hwritten]; [discriminate|].
        apply list_elem_of_singleton in Hwritten. by injection Hwritten as <-.
      - apply elem_of_cons in Hwritten as [?|Hwritten]; [discriminate|].
        apply elem_of_cons in Hwritten as [[= <-]|Hwritten]; [done|].
        apply elem_of_cons in Hwritten as [?|Hwritten]; [discriminate|].
        apply list_elem_of_singleton in Hwritten. discriminate. }
    split_and!; [done| |done].
    intros p e Hp Hf.
    destruct (settled_error_kept fetch profiles s Hrun Hsettled)
      as (p' & e' & _ & _ & Herr); [eauto|].
    unfold main_after_wait in Hmain. by rewrite Herr in Hmain.
  - unfold Sink.finish.
    destruct (main_after_wait ExcludeRoot s) as [t|f|msg]; simpl.
    + unfold write_report. destruct (os_Create Output) as [e|]; simpl.
      { split; [|done]. intros Hin%list_elem_of_singleton. discriminate. }
      destruct (writer_WriteAll t) as [e|]; simpl.
      * split; [|done]. intros Hin.
        apply elem_of_cons in Hin as [?|Hin]; [discriminate|].
        apply list_elem_of_singleton in Hin. discriminate.
      * split; [done|]. intros _. do 3 right. left.
    + split; [by intros ?%elem_of_nil|done].
    + split; [by intros ?%elem_of_nil|done].
Qed.

End Run.

(** The request of the second account is denied: nothing is written. *)
Lemma no_output_when_second_denied :
  ∃ p e, p ∈ ["acct1"; "acct2"]
         ∧ MoreExamples.second_denied p = Fail e
         ∧ finish MoreExamples.create_ok MoreExamples.write_ok "report.csv" true
             (MoreExamples.failed2
                (ProfileResult 0 "acct1" ["user"; "arn"]
                               [["alice"; "arn:aws:iam::1:user/alice"]])
                zero_profileResult
                (ErrGenerate "acct2" (SdkError "AccessDenied")))
           = (ExitFatal (ErrorFetchingReports e), []).
Proof.
  destruct (no_output_unless_all_fetched MoreExamples.create_ok
              MoreExamples.write_ok MoreExamples.second_denied
              ["acct1"; "acct2"] "report.csv" true
              (MoreExamples.failed2
                 (ProfileResult 0 "acct1" ["user"; "arn"]
                                [["alice"; "arn:aws:iam::1:user/alice"]])
                 zero_profileResult
                 (ErrGenerate "acct2" (SdkError "AccessDenied"))))
    as (Hfailed & _ & _).
  - apply second_denied_run.
  - split; [reflexivity|]. repeat constructor.
  - apply Hfailed.
    exists "acct2", (ErrGenerate "acct2" (SdkError "AccessDenied")).
    split; [|reflexivity]. right. left.
Defined.

(** On a full disk the file is created, the table is handed to the writer
    and the file is left unclosed. *)
Example write_error_leaves_file_open :
  finish MoreExamples.create_ok MoreExamples.write_full "report.csv" true
    (Examples.settled2 Examples.acct1 Examples.acct2)
  = (ExitWrite (SdkError "no space left on device"),
     [IoCreate "report.csv";
      IoWriteAll [ ["profile"; "user"; "arn"; "active"];
                   ["acct1"; "alice"; "arn:aws:iam::1:user/alice"; "true"] ]]).
Proof. reflexivity. Qed.

End SinkMore.

Module MainMore.
Import Coordinator Dedup DedupMore.

(** X17: a profile that is requested again, anywhere after its first
    occurrence, changes nothing: the working set is the same, so [main] has
    the same outcomes, and the profile is fetched by one task only. *)
Theorem repeated_profile_changes_nothing
    (fetch : string → outcome error report) (l1 l2 : list string) (p : string)
    (ExcludeRoot : bool) (out : outcome fatal (list (list string))) :
  p ∈ l1 →
  dedup (l1 ++ p :: l2) = dedup (l1 ++ l2)
  ∧ (main fetch (l1 ++ p :: l2) ExcludeRoot out
     ↔ main fetch (l1 ++ l2) ExcludeRoot out)
  ∧ (∀ s, reachable fetch (dedup (l1 ++ p :: l2)) s →
          length (pcs s) ≤ length (dedup (l1 ++ l2))).
Proof.
  intros Hp. pose proof (dedup_repeat l1 l2 p Hp) as Heq.
  split_and!; [done| |].
  - unfold main. by rewrite Heq.
  - intros s Hrun. rewrite Heq in Hrun.
    apply CoordinatorFacts.reachable_inv in Hrun as [Hlen Hbound _ _ _ _ _ _].
    lia.
Qed.

(** [acct1] requested a second time after [acct2]. *)
Lemma repeated_acct1_changes_nothing :
  dedup (["acct1"; "acct2"] ++ "acct1" :: []) = dedup (["acct1"; "acct2"] ++ [])
  ∧ (main Examples.two_accounts (["acct1"; "acct2"] ++ "acct1" :: []) true
          (Ok [ ["profile"; "user"; "arn"; "active"];
                ["acct1"; "alice"; "arn:aws:iam::1:user/alice"; "true"] ])
     ↔ main Examples.two_accounts (["acct1"; "acct2"] ++ []) true
            (Ok [ ["profile"; "user"; "arn"; "active"];
                  ["acct1"; "alice"; "arn:aws:iam::1:user/alice"; "true"] ])).
Proof.
  destruct (repeated_profile_changes_nothing Examples.two_accounts
              ["acct1"; "acct2"] [] "acct1" true
              (Ok [ ["profile"; "user"; "arn"; "active"];
                    ["acct1"; "alice"; "arn:aws:iam::1:user/alice"; "true"] ]))
    as (Hdedup & Hmain & _).
  - left.
  - by split.
Defined.

End MainMore.

Module SortMore.
Import Merge.





End SortMore.

Module ScheduleMore.
Import Coordinator CoordinatorFacts CoordinatorMore Progress.

Section Run.
Variable fetch : string → outcome error report.
Variable profiles : list string.

Local Abbreviation step := (step fetch profiles).
Local Abbreviation reachable := (reachable fetch profiles).

Hypothesis fetch_returns : ∀ p msg, p ∈ profiles → fetch p ≠ Panic msg.

(** [main] may launch every task before any of them is admitted. *)
Lemma launch_all k :
  k ≤ length profiles →
  reachable (State k (replicate k PcSend) 0
                   (replicate (length profiles) zero_profileResult) None).
Proof.
  induction k as [|k IH]; intros Hk; [apply rtc_refl|].
  eapply rtc_r; [apply IH; lia|]. rewrite replicate_S_end.
  apply (step_go fetch profiles
           (State k (replicate k PcSend) 0
                  (replicate (length profiles) zero_profileResult) None)).
  simpl. lia.
Qed.

(** With the gate empty a waiting task may run from its admission to its
    release without any other step in between. *)
Lemma run_task s i p :
  reachable s → sem s = 0 →
  pcs s !! i = Some PcSend → profiles !! i = Some p →
  ∃ s', rtc step s s'
        ∧ launched s' = launched s
        ∧ pcs s' = <[i := PcDone]> (pcs s)
        ∧ sem s' = 0
        ∧ egerr s' = match egerr s with
                     | Some e0 => Some e0
                     | None => match fetch p with Fail e => Some e | _ => None end
                     end.
Proof.
  intros Hrun Hsem Hi Hp.
  pose proof (reachable_inv fetch profiles s Hrun)
    as [Hlen Hbound Hhold Hcap Hrlen _ _ _].
  assert (i < length (pcs s)) as Hil by by eapply lookup_lt_Some.
  assert (p ∈ profiles) as Hin by (apply list_elem_of_lookup; eauto).
  set (s1 := State (launched s) (<[i := PcFetch]> (pcs s)) (S (sem s))
                   (results s) (egerr s)).
  assert (step s s1) as Hstep1.
  { apply (step_send fetch profiles s i Hi). unfold sem_cap. lia. }
  assert (pcs s1 !! i = Some PcFetch) as Hi1
    by by apply list_lookup_insert_eq.
  destruct (fetch p) as [[h r]|e|msg] eqn:Hf.
  - set (s2 := State (launched s1) (<[i := PcRelease None]> (pcs s1)) (sem s1)
                     (<[i := ProfileResult (Z.of_nat i) p h r]> (results s1))
                     (egerr s1)).
    assert (step s1 s2) as Hstep2.
    { apply (step_fetch_ok fetch profiles s1 i p h r Hi1 Hp Hf). simpl. lia. }
    eexists. split.
    + eapply rtc_l; [exact Hstep1|]. eapply rtc_l; [exact Hstep2|].
      apply rtc_once.
      apply (step_recv fetch profiles s2 i None); simpl; [|lia].
      apply list_lookup_insert_eq. by rewrite length_insert.
    + simpl. split_and!; [done| |lia|by destruct (egerr s)].
      by rewrite !list_insert_insert_eq.
  - set (s2 := State (launched s1) (<[i := PcRelease (Some e)]> (pcs s1))
                     (sem s1) (results s1) (egerr s1)).
    assert (step s1 s2) as Hstep2
      by apply (step_fetch_err fetch profiles s1 i p e Hi1 Hp Hf).
    eexists. split.
    + eapply rtc_l; [exact Hstep1|]. eapply rtc_l; [exact Hstep2|].
      apply rtc_once.
      apply (step_recv fetch profiles s2 i (Some e)); simpl; [|lia].
      apply list_lookup_insert_eq. by rewrite length_insert.
    + simpl. split_and!; [done| |lia|done].
      by rewrite !list_insert_insert_eq.
  - by destruct (fetch_returns p msg Hin).
Qed.

(** From a state in which every task is launched and none is under way,
    the tasks that wait may run one after the other to the end, and an
    error that is kept stays kept. *)
Lemma finish_all m : ∀ s,
  reachable s → launched s = length profiles → sem s = 0 →
  Forall (λ q, q = PcSend ∨ q = PcDone) (pcs s) →
  sum_list (rank <$> pcs s) + 3 * m = 3 * length (pcs s) →
  ∃ s', rtc step s s' ∧ settled profiles s'
        ∧ ∀ e, egerr s = Some e → egerr s' = Some e.
Proof.
  induction m as [|m IH]; intros s Hrun Hall Hsem Hidle Hleft.
  - exists s. split_and!; [done| |done].
    split; [done|]. apply rank_full. lia.
  - destruct (done_or_not (pcs s)) as [Hdone%rank_full|(i & q & Hi & Hq)];
      [lia|].
    assert (q = PcSend) as ->.
    { rewrite Forall_forall in Hidle.
      destruct (Hidle q) as [?|?]; [apply list_elem_of_lookup; eauto|done..]. }
    pose proof (reachable_inv fetch profiles s Hrun)
      as [Hlen Hbound _ _ _ _ _ _].
    destruct (lookup_lt_is_Some_2 profiles i) as [p Hp].
    { apply lookup_lt_Some in Hi. lia. }
    destruct (run_task s i p Hrun Hsem Hi Hp)
      as (s1 & Hrun1 & Hl1 & Hpcs1 & Hsem1 & Herr1).
    destruct (IH s1) as (s' & Hrun' & Hsettled & Herr').
    + by eapply rtc_trans.
    + lia.
    + done.
    + rewrite Hpcs1. apply Forall_insert; [done|by right].
    + rewrite Hpcs1, length_insert.
      pose proof (rank_insert (pcs s) i PcSend PcDone Hi) as Hr.
      simpl in Hr. lia.
    + exists s'. split_and!; [by eapply rtc_trans|done|].
      intros e He. apply Herr'. by rewrite Herr1, He.
Qed.

(** X19: which error [main] reports depends on the order in which the
    tasks end, and on nothing else: when no fetch panics, for each profile
    whose fetch fails there is a run in which [eg.Wait()] returns and [main]
    stops with the fatal message about the error of that very fetch. *)
Theorem any_failed_fetch_may_be_reported (ExcludeRoot : bool) (i : nat)
    (p : string) (e : error) :
  profiles !! i = Some p → fetch p = Fail e →
  ∃ s, reachable s ∧ settled profiles s
       ∧ main_after_wait ExcludeRoot s = Fail (ErrorFetchingReports e).
Proof.
  intros Hp Hf.
  set (n := length profiles).
  set (s0 := State n (replicate n PcSend) 0 (replicate n zero_profileResult) None).
  assert (reachable s0) as Hrun0 by (apply launch_all; lia).
  assert (i < n) as Hi by by eapply lookup_lt_Some.
  destruct (run_task s0 i p Hrun0 eq_refl)
    as (s1 & Hrun1 & Hl1 & Hpcs1 & Hsem1 & Herr1).
  { simpl. by apply lookup_replicate_2. }
  { done. }
  simpl in Herr1, Hl1, Hpcs1. rewrite Hf in Herr1.
  assert (reachable s1) as Hreach1 by by eapply rtc_trans.
  assert (sum_list (rank <$> replicate n PcSend) = 0) as Hzero.
  { clear. induction n as [|n IH]; [done|]. by rewrite replicate_S, rank_cons, IH. }
  destruct (finish_all (n - 1) s1) as (s' & Hrun' & Hsettled & Herr'); try done.
  - rewrite Hpcs1. apply Forall_insert; [|by right].
    apply Forall_forall. intros q [-> _]%elem_of_replicate. by left.
  - rewrite Hpcs1, length_insert, length_replicate.
    pose proof (rank_insert (replicate n PcSend) i PcSend PcDone
                  (lookup_replicate_2 n PcSend i Hi)) as Hr.
    simpl in Hr. lia.
  - exists s'. split_and!; [by eapply rtc_trans|done|].
    unfold main_after_wait. by rewrite (Herr' e Herr1).
Qed.

End Run.

(** Both requests are denied: some run reports the denial of the second. *)
Lemma second_denial_may_be_reported :
  ∃ s, reachable MoreExamples.all_denied ["acct1"; "acct2"] s
       ∧ settled ["acct1"; "acct2"] s
       ∧ main_after_wait true s
         = Fail (ErrorFetchingReports
                   (ErrGenerate "acct2" (SdkError "AccessDenied"))).
Proof.
  apply (any_failed_fetch_may_be_reported MoreExamples.all_denied
           ["acct1"; "acct2"]) with (i := 1) (p := "acct2").
  - intros p msg _. discriminate.
  - reflexivity.
  - reflexivity.
Defined.

End ScheduleMore.

Module WholeProgram.
Import Coordinator CoordinatorFacts Merge MergeFacts Fetcher FetcherMore.

Section Service.
Context {Cfg : Type}.
Variable LoadDefaultConfig : string → sdk_error + Cfg.
Variable GenerateCredentialReport : Cfg → sdk_error + unit.
Variable GetCredentialReport : Cfg → nat → sdk_error + string.
Variable csv_ReadAll : string → sdk_error + list (list string).

Local Abbreviation fetch :=
  (fetch LoadDefaultConfig GenerateCredentialReport GetCredentialReport csv_ReadAll).

(** X20: whatever the service, the SDK and the CSV reader answer, [main]
    has a run in which [eg.Wait()] returns, so it has an outcome; and the
    only panic among its outcomes is the index out of range of the root
    filter, which needs the exclude-root flag. *)
Theorem main_ends_and_panics_only_in_the_filter (Profiles : list string)
    (ExcludeRoot : bool) :
  (∃ out, main fetch Profiles ExcludeRoot out)
  ∧ (∀ out msg, main fetch Profiles ExcludeRoot out → out = Panic msg →
       msg = "index out of range" ∧ ExcludeRoot = true).
Proof.
  split.
  - destruct (run_settles fetch (Dedup.dedup Profiles)) as (s & Hrun & Hsettled).
    { intros p msg _ Hpanic.
      destruct (fetch_cases LoadDefaultConfig GenerateCredentialReport
                  GetCredentialReport csv_ReadAll p)
        as [(e & _ & Hf & _) | [(cfg & e & _ & _ & Hf & _)
           | [(cfg & k & content & _ & _ & _ & _ & Hf & _)
           | (cfg & e & _ & _ & _ & Hf & _)]]];
        rewrite Hf in Hpanic; try done.
      unfold Fetcher.parse in Hpanic.
      by destruct (csv_ReadAll content) as [?|[|??]]. }
    exists (main_after_wait ExcludeRoot s), s. by split_and!.
  - intros out msg (s & _ & _ & ->) Hpanic.
    unfold main_after_wait in Hpanic.
    destruct (egerr s) as [e|]; [done|].
    destruct (sort_results (results s)) as [|first rest].
    { by destruct ExcludeRoot. }
    rewrite merge_unfold in Hpanic.
    destruct (first_index "arn" (header first)) as [k|]; [|done].
    destruct ExcludeRoot; [|done].
    destruct (indexable true k (first :: rest)); [done|].
    by injection Hpanic as <-.
Qed.

End Service.

End WholeProgram.
